(** * Stellar-forge: the stellar evolution and orbital dynamics model

  A shallow embedding of the physics functions and of the per-frame
  component logic of the solar-system visualisation (the [App] source with
  [useStarPhysics], [getSystemPhysics], [AsteroidBelt], [KuiperBelt],
  [SinglePlanet], the playback clock and the explosion trigger), and of the
  stand-alone hook [hooks/useStarPhysics.js].

  JavaScript numbers are modelled by [number]: the finite values are real
  numbers (rounding and the sign of zero are not modelled), and the three
  special values NaN, +Infinity and -Infinity are kept, with the IEEE rules
  for arithmetic and comparisons on them. *)

From Stdlib Require Import Reals Lra Lia ZArith List String Bool.
Import ListNotations.

Open Scope R_scope.

(** ** JavaScript numbers *)

Inductive number : Type :=
| NaN
| PosInf
| NegInf
| Fin (r : R).

Coercion Fin : R >-> number.

Declare Scope js_scope.
Delimit Scope js_scope with js.
Bind Scope js_scope with number.

Module Num.

Definition inf (positive : bool) : number :=
  if positive then PosInf else NegInf.

(** [nonneg r] is the sign test used when an infinity is multiplied or
    divided by a finite value. *)
Definition nonneg (r : R) : bool := if Rle_dec 0 r then true else false.

Definition is_zero (r : R) : bool := if Req_dec_T r 0 then true else false.

Definition add (x y : number) : number :=
  match x, y with
  | NaN, _ | _, NaN => NaN
  | Fin a, Fin b => Fin (a + b)
  | PosInf, NegInf | NegInf, PosInf => NaN
  | PosInf, _ | _, PosInf => PosInf
  | NegInf, _ | _, NegInf => NegInf
  end.

Definition opp (x : number) : number :=
  match x with
  | NaN => NaN
  | PosInf => NegInf
  | NegInf => PosInf
  | Fin a => Fin (- a)
  end.

Definition sub (x y : number) : number := add x (opp y).

Definition mul (x y : number) : number :=
  match x, y with
  | NaN, _ | _, NaN => NaN
  | Fin a, Fin b => Fin (a * b)
  | PosInf, PosInf | NegInf, NegInf => PosInf
  | PosInf, NegInf | NegInf, PosInf => NegInf
  | PosInf, Fin b | Fin b, PosInf =>
      if is_zero b then NaN else inf (nonneg b)
  | NegInf, Fin b | Fin b, NegInf =>
      if is_zero b then NaN else inf (negb (nonneg b))
  end.

Definition div (x y : number) : number :=
  match x, y with
  | NaN, _ | _, NaN => NaN
  | Fin a, Fin b =>
      if is_zero b
      then (if is_zero a then NaN else inf (nonneg a))
      else Fin (a / b)
  | Fin _, (PosInf | NegInf) => Fin 0
  | PosInf, Fin b => inf (nonneg b)
  | NegInf, Fin b => inf (negb (nonneg b))
  | (PosInf | NegInf), (PosInf | NegInf) => NaN
  end.

(** The relational operators: every comparison with NaN is false. *)
Definition lt (x y : number) : bool :=
  match x, y with
  | NaN, _ | _, NaN => false
  | Fin a, Fin b => if Rlt_dec a b then true else false
  | NegInf, NegInf => false
  | NegInf, _ => true
  | _, NegInf => false
  | PosInf, _ => false
  | Fin _, PosInf => true
  end.

Definition le (x y : number) : bool :=
  match x, y with
  | NaN, _ | _, NaN => false
  | Fin a, Fin b => if Rle_dec a b then true else false
  | NegInf, _ => true
  | _, PosInf => true
  | _, NegInf => false
  | PosInf, Fin _ => false
  end.

Definition gt (x y : number) : bool := lt y x.
Definition ge (x y : number) : bool := le y x.

End Num.

Infix "+" := Num.add : js_scope.
Infix "-" := Num.sub : js_scope.
Infix "*" := Num.mul : js_scope.
Infix "/" := Num.div : js_scope.
Infix "<?" := Num.lt (at level 70, no associativity) : js_scope.
Infix "<=?" := Num.le (at level 70, no associativity) : js_scope.
Infix ">?" := Num.gt (at level 70, no associativity) : js_scope.
Infix ">=?" := Num.ge (at level 70, no associativity) : js_scope.

(** ** The [Math] builtins the program calls *)

Module Math.

(** [is_integer y]: the real [y] is an integral value. *)
Definition is_integer (y : R) : bool := Num.is_zero (frac_part y).

Definition lt1 (r : R) : bool := if Rlt_dec r 1 then true else false.

(** [Math.pow], after the cases of ECMAScript's Number::exponentiate. *)
Definition pow (base exponent : number) : number :=
  match exponent with
  | NaN => NaN
  | PosInf =>
      match base with
      | NaN => NaN
      | PosInf | NegInf => PosInf
      | Fin b =>
          if Num.is_zero (Rabs b - 1) then NaN
          else if lt1 (Rabs b) then Fin 0 else PosInf
      end
  | NegInf =>
      match base with
      | NaN => NaN
      | PosInf | NegInf => Fin 0
      | Fin b =>
          if Num.is_zero (Rabs b - 1) then NaN
          else if lt1 (Rabs b) then PosInf else Fin 0
      end
  | Fin e =>
      if Num.is_zero e then Fin 1
      else
        match base with
        | NaN => NaN
        | PosInf => if Num.nonneg e then PosInf else Fin 0
        | NegInf =>
            if Num.nonneg e
            then (if is_integer e && Z.odd (Int_part e) then NegInf else PosInf)
            else Fin 0
        | Fin b =>
            if Num.is_zero b then (if Num.nonneg e then Fin 0 else PosInf)
            else if Num.nonneg b then Fin (Rpower b e)
            else if is_integer e then Fin (powerRZ b (Int_part e))
            else NaN
        end
  end.

Definition log (x : number) : number :=
  match x with
  | NaN | NegInf => NaN
  | PosInf => PosInf
  | Fin a =>
      if Num.is_zero a then NegInf
      else if Num.nonneg a then Fin (ln a) else NaN
  end.

Definition sqrt (x : number) : number :=
  match x with
  | NaN | NegInf => NaN
  | PosInf => PosInf
  | Fin a => if Num.nonneg a then Fin (R_sqrt.sqrt a) else NaN
  end.

Definition cos (x : number) : number :=
  match x with
  | Fin a => Fin (Rtrigo_def.cos a)
  | _ => NaN
  end.

Definition sin (x : number) : number :=
  match x with
  | Fin a => Fin (Rtrigo_def.sin a)
  | _ => NaN
  end.

Definition PI : number := Fin Rtrigo1.PI.

End Math.

(** ** The application source: the physics engine *)

Module App.

Inductive Stage : Type :=
| MainSequence
| RedGiant
| Supernova
| WhiteDwarf.

(** The text the program shows for each stage. *)
Definition stage_label (s : Stage) : string :=
  match s with
  | MainSequence => "Main Sequence"
  | RedGiant => "Red Giant"
  | Supernova => "SUPERNOVA"
  | WhiteDwarf => "White Dwarf"
  end.

(** The description templates; [StableFusion l] stands for the template
    that prints the lifespan [l] with two decimals. *)
Inductive Description : Type :=
| StableFusion (lifespan : number)
| HydrogenDepleted
| CoreCollapseImminent
| OuterLayersShed.

Record StarStats : Type := mkStarStats {
  stage : Stage;
  color : string;
  scale : number;
  description : Description
}.

(** The constants computed at the head of [useStarPhysics]. *)
Definition star_lifespan (mass : number) : number :=
  (10 / Math.pow mass 2.5 + 0.5)%js.

Definition star_redGiantStart (mass : number) : number :=
  star_lifespan mass.

Definition star_deathStart (mass : number) : number :=
  (star_lifespan mass * 1.2)%js.

Definition star_baseSize (mass : number) : number :=
  (Math.log (mass + 1) * 1.5)%js.

Definition useStarPhysics (mass age : number) : StarStats :=
  let lifespan := star_lifespan mass in
  let redGiantStart := star_redGiantStart mass in
  let deathStart := star_deathStart mass in
  let baseSize := star_baseSize mass in
  if (age <? redGiantStart)%js then
    let colorTemp :=
      if (mass >? 2)%js then "#aaddff"%string
      else if (mass >? 0.8)%js then "#ffaa00"%string
      else "#ff5500"%string in
    {| stage := MainSequence;
       color := colorTemp;
       scale := baseSize;
       description := StableFusion lifespan |}
  else if (age >=? redGiantStart)%js && (age <? deathStart)%js then
    let progress := ((age - redGiantStart) / (deathStart - redGiantStart))%js in
    {| stage := RedGiant;
       color := "#ff0000"%string;
       scale := (baseSize * (1 + progress * 5))%js;
       description := HydrogenDepleted |}
  else
    let isSupernova := (mass >? 8)%js in
    {| stage := if isSupernova then Supernova else WhiteDwarf;
       color := "#ffffff"%string;
       scale := if isSupernova then (baseSize * 0.5)%js else (baseSize * 0.2)%js;
       description :=
         if isSupernova then CoreCollapseImminent else OuterLayersShed |}.

Record SystemPhysics : Type := mkSystemPhysics {
  currentMass : number;
  lifespan : number;
  redGiantEnd : number
}.

(** The value of the local variable [massMultiplier] of [getSystemPhysics]
    once its two conditionals have run. *)
Definition massMultiplier (lifespan redGiantEnd starAge : number) : number :=
  if (starAge >? lifespan)%js && (starAge <? redGiantEnd)%js then
    let phaseProgress := ((starAge - lifespan) / (redGiantEnd - lifespan))%js in
    (1.0 - phaseProgress * 0.6)%js
  else if (starAge >=? redGiantEnd)%js then Fin 0.4
  else Fin 1.0.

Definition getSystemPhysics (starMass starAge : number) : SystemPhysics :=
  let lifespan := (10 / Math.pow starMass 2.5 + 0.5)%js in
  let redGiantEnd := (lifespan * 1.2)%js in
  let massMultiplier := massMultiplier lifespan redGiantEnd starAge in
  {| currentMass := (starMass * massMultiplier)%js;
     lifespan := lifespan;
     redGiantEnd := redGiantEnd |}.

(** The three scaling values every orbiting component derives from
    [getSystemPhysics] at the head of its frame callback. *)
Definition agingExpansion (mass currentMass : number) : number :=
  (mass / currentMass)%js.

Definition initialSystemScale (mass : number) : number :=
  Math.pow mass 0.5.

Definition currentSpeed (speed mass currentMass : number) : number :=
  ((speed * Math.sqrt currentMass) / initialSystemScale mass)%js.

Record Vec3 : Type := mkVec3 {
  vx : number;
  vy : number;
  vz : number
}.

(** [Vector3.lerp]: move a point towards [target] by the fraction [alpha]. *)
Definition lerp (p target : Vec3) (alpha : number) : Vec3 :=
  {| vx := (vx p + (vx target - vx p) * alpha)%js;
     vy := (vy p + (vy target - vy p) * alpha)%js;
     vz := (vz p + (vz target - vz p) * alpha)%js |}.

(** *** The inner asteroid belt *)

Record Particle : Type := mkParticle {
  p_angle : number;
  p_dist : number;
  p_speed : number;
  p_yOffset : number;
  p_size : number
}.

(** What a frame writes into the instanced mesh for one particle. *)
Record Instance : Type := mkInstance {
  i_position : Vec3;
  i_scale : number
}.

(** The body of [asteroids.forEach] in [AsteroidBelt]; the spin of the
    particle about its axis is not modelled. *)
Definition AsteroidBelt_particle
  (mass age : number) (exploded : bool) (starScale delta : number)
  (data : Particle) : Particle * Instance :=
  let phys := getSystemPhysics mass age in
  let expansionFactor :=
    (agingExpansion mass (currentMass phys) * initialSystemScale mass)%js in
  let currentDist := (p_dist data * expansionFactor)%js in
  let speed := currentSpeed (p_speed data) mass (currentMass phys) in
  let angle := (p_angle data + speed * delta * 0.2)%js in
  let x := (Math.cos angle * currentDist)%js in
  let z := (Math.sin angle * currentDist)%js in
  let s := p_size data in
  let s :=
    if (age >? lifespan phys)%js && (age <? redGiantEnd phys)%js
       && (starScale >? currentDist * 0.9)%js
    then Fin 0 else s in
  let s := if exploded then Fin 0 else s in
  ({| p_angle := angle; p_dist := p_dist data; p_speed := p_speed data;
      p_yOffset := p_yOffset data; p_size := p_size data |},
   {| i_position := {| vx := x; vy := p_yOffset data; vz := z |};
      i_scale := s |}).

Definition AsteroidBelt_frame
  (mass age : number) (exploded : bool) (starScale delta : number)
  (asteroids : list Particle) : list (Particle * Instance) :=
  map (AsteroidBelt_particle mass age exploded starScale delta) asteroids.

(** *** The Kuiper belt *)

Definition KuiperBelt_particle
  (mass age : number) (exploded : bool) (starScale delta : number)
  (data : Particle) : Particle * Instance :=
  let phys := getSystemPhysics mass age in
  let expansionFactor :=
    (agingExpansion mass (currentMass phys) * initialSystemScale mass)%js in
  let currentDist := (p_dist data * expansionFactor)%js in
  let speed := currentSpeed (p_speed data) mass (currentMass phys) in
  let angle := (p_angle data + speed * delta * 0.1)%js in
  let x := (Math.cos angle * currentDist)%js in
  let z := (Math.sin angle * currentDist)%js in
  let s := p_size data in
  let s := if exploded then Fin 0 else s in
  ({| p_angle := angle; p_dist := p_dist data; p_speed := p_speed data;
      p_yOffset := p_yOffset data; p_size := p_size data |},
   {| i_position := {| vx := x; vy := p_yOffset data; vz := z |};
      i_scale := s |}).

Definition KuiperBelt_frame
  (mass age : number) (exploded : bool) (starScale delta : number)
  (asteroids : list Particle) : list (Particle * Instance) :=
  map (KuiperBelt_particle mass age exploded starScale delta) asteroids.

(** *** The planets *)

Record PlanetData : Type := mkPlanetData {
  name : string;
  baseDist : number;
  size : number;
  speed : number;
  hasMoon : bool;
  hasRings : bool;
  isEccentric : bool;
  inclination : number;
  eccentricity : number
}.

(** A catalogue entry that gives neither [isEccentric], [inclination] nor
    [eccentricity]: the flag is falsy and the two numbers, never read then,
    are NaN. *)
Definition circular (name : string) (baseDist size speed : number)
  (hasMoon hasRings : bool) : PlanetData :=
  {| name := name; baseDist := baseDist; size := size; speed := speed;
     hasMoon := hasMoon; hasRings := hasRings;
     isEccentric := false; inclination := NaN; eccentricity := NaN |}.

Definition planets : list PlanetData :=
  [ circular "MERCURY" 3.5 0.15 2.0 false false;
    circular "VENUS" 5.0 0.25 1.5 false false;
    circular "EARTH" 7.0 0.3 1.0 true false;
    circular "MARS" 9.0 0.2 0.8 false false;
    circular "JUPITER" 14.0 0.8 0.5 false false;
    circular "SATURN" 19.0 0.7 0.4 false true;
    circular "URANUS" 24.0 0.5 0.3 false false;
    circular "NEPTUNE" 28.0 0.5 0.2 false false;
    {| name := "PLUTO"; baseDist := 35.0; size := 0.25; speed := 0.15;
       hasMoon := false; hasRings := false;
       isEccentric := true; inclination := 0.3; eccentricity := 0.2 |} ].

(** The React state of one [SinglePlanet], with the position of its mesh. *)
Record PlanetState : Type := mkPlanetState {
  angle : number;
  isDead : bool;
  hovered : bool;
  position : Vec3
}.

(** A planet as it is mounted: [useState(false)] for [isDead]. *)
Definition SinglePlanet_mount (angle0 : number) : PlanetState :=
  {| angle := angle0; isDead := false; hovered := false;
     position := {| vx := 0; vy := 0; vz := 0 |} |}.

(** The "Position Logic" of the frame callback. *)
Definition planet_target (data : PlanetData) (currentBaseDist angle : number)
  : Vec3 :=
  if isEccentric data then
    let e := eccentricity data in
    let r := ((currentBaseDist * (1 - e * e)) / (1 + e * Math.cos angle))%js in
    let x0 := (r * Math.cos angle)%js in
    let z0 := (r * Math.sin angle)%js in
    {| vx := x0;
       vy := (z0 * Math.sin (inclination data))%js;
       vz := (z0 * Math.cos (inclination data))%js |}
  else
    {| vx := (Math.cos angle * currentBaseDist)%js;
       vy := 0;
       vz := (Math.sin angle * currentBaseDist)%js |}.

Definition distFromCenter (p : Vec3) : number :=
  Math.sqrt (vx p * vx p + vz p * vz p)%js.

(** The "Death Logic" of the frame callback: does this frame call
    [setIsDead(true)]? *)
Definition planet_engulfed
  (starScale starAge lifespan redGiantEnd : number) (target : Vec3) : bool :=
  if (starAge >? lifespan)%js && (starAge <? redGiantEnd)%js then
    if (starScale >? distFromCenter target * 0.95)%js then true else false
  else false.

(** The result of one frame of a planet: its next state, and whether the
    frame cleared the focus and the selection ([setFocus(null)] and
    [setSelectPlanet(null)]). The moon, the spin of the planet and the
    orbit ring are not modelled. *)
Definition SinglePlanet_frame
  (data : PlanetData) (starScale : number) (exploded : bool)
  (starMass starAge delta : number) (st : PlanetState) : PlanetState * bool :=
  if exploded || isDead st then (st, false)
  else
    let phys := getSystemPhysics starMass starAge in
    let agingExpansion := agingExpansion starMass (currentMass phys) in
    let initialSystemScale := initialSystemScale starMass in
    let currentBaseDist :=
      (baseDist data * initialSystemScale * agingExpansion)%js in
    let currentSpeed := currentSpeed (speed data) starMass (currentMass phys) in
    let target := planet_target data currentBaseDist (angle st) in
    let dead :=
      planet_engulfed starScale starAge (lifespan phys) (redGiantEnd phys)
        target in
    ({| angle := (angle st + delta * currentSpeed * 0.2)%js;
        isDead := if dead then true else isDead st;
        hovered := hovered st;
        position := lerp (position st) target 0.1 |},
     dead).

(** The target position that the frame callback computes from the props
    and the current angle, on its own. *)
Definition frame_target
  (data : PlanetData) (starMass starAge : number) (st : PlanetState) : Vec3 :=
  let phys := getSystemPhysics starMass starAge in
  let agingExpansion := agingExpansion starMass (currentMass phys) in
  let initialSystemScale := initialSystemScale starMass in
  let currentBaseDist :=
    (baseDist data * initialSystemScale * agingExpansion)%js in
  planet_target data currentBaseDist (angle st).

(** The distance of an inner-belt particle from the star in a frame, on its
    own. *)
Definition particle_currentDist (mass age : number) (data : Particle)
  : number :=
  let phys := getSystemPhysics mass age in
  let expansionFactor :=
    (agingExpansion mass (currentMass phys) * initialSystemScale mass)%js in
  (p_dist data * expansionFactor)%js.

(** What [SinglePlanet] hands to the renderer. *)
Record PlanetView : Type := mkPlanetView {
  sphereRadius : number;
  sphereColor : string;
  orbitRingShown : bool;
  moonShown : bool;
  ringsShown : bool;
  labelShown : bool
}.

(** The render function of [SinglePlanet]: [None] when the component
    returns [null]. *)
Definition SinglePlanet_render
  (data : PlanetData) (exploded : bool) (st : PlanetState)
  : option PlanetView :=
  if isDead st then None
  else
    Some {| sphereRadius := size data;
            sphereColor :=
              if exploded then "#111"%string
              else if hovered st then "#aaf"%string else "white"%string;
            orbitRingShown := negb exploded;
            moonShown := hasMoon data && negb exploded;
            ringsShown := hasRings data && negb exploded;
            labelShown := negb exploded && hovered st |}.

(** The size at which a planet appears in a frame: the radius of its
    sphere, or nothing at all. *)
Definition planet_rendered_size
  (data : PlanetData) (exploded : bool) (st : PlanetState) : option number :=
  option_map sphereRadius (SinglePlanet_render data exploded st).

(** One frame's inputs, as the parent passes them to every body. *)
Record Frame : Type := mkFrame {
  f_starScale : number;
  f_exploded : bool;
  f_mass : number;
  f_age : number;
  f_delta : number
}.

Definition planet_step (data : PlanetData) (st : PlanetState) (f : Frame)
  : PlanetState :=
  fst (SinglePlanet_frame data (f_starScale f) (f_exploded f)
         (f_mass f) (f_age f) (f_delta f) st).

(** A planet's state after a sequence of frames. *)
Definition planet_run (data : PlanetData) (st : PlanetState)
  (frames : list Frame) : PlanetState :=
  fold_left (planet_step data) frames st.

Definition particle_step (p : Particle) (f : Frame) : Particle :=
  fst (AsteroidBelt_particle (f_mass f) (f_age f) (f_exploded f)
         (f_starScale f) (f_delta f) p).


Definition kuiper_scale (p : Particle) (f : Frame) : number :=
  i_scale (snd (KuiperBelt_particle (f_mass f) (f_age f) (f_exploded f)
                  (f_starScale f) (f_delta f) p)).

(** *** The application component: state, playback clock, explosion *)

Record AppState : Type := mkAppState {
  mass : number;
  age : number;
  exploded : bool;
  isPlaying : bool;
  focusTarget : option string;
  selectedPlanet : option string;
  resetKey : nat
}.

Definition App_initial : AppState :=
  {| mass := 1; age := 0; exploded := false; isPlaying := false;
     focusTarget := None; selectedPlanet := None; resetKey := 0%nat |}.

Definition setAge (a : number) (s : AppState) : AppState :=
  {| mass := mass s; age := a; exploded := exploded s;
     isPlaying := isPlaying s; focusTarget := focusTarget s;
     selectedPlanet := selectedPlanet s; resetKey := resetKey s |}.

Definition setMass (m : number) (s : AppState) : AppState :=
  {| mass := m; age := age s; exploded := exploded s;
     isPlaying := isPlaying s; focusTarget := focusTarget s;
     selectedPlanet := selectedPlanet s; resetKey := resetKey s |}.

Definition setExploded (b : bool) (s : AppState) : AppState :=
  {| mass := mass s; age := age s; exploded := b;
     isPlaying := isPlaying s; focusTarget := focusTarget s;
     selectedPlanet := selectedPlanet s; resetKey := resetKey s |}.

Definition setIsPlaying (b : bool) (s : AppState) : AppState :=
  {| mass := mass s; age := age s; exploded := exploded s;
     isPlaying := b; focusTarget := focusTarget s;
     selectedPlanet := selectedPlanet s; resetKey := resetKey s |}.

Definition starStats (s : AppState) : StarStats :=
  useStarPhysics (mass s) (age s).

(** The props the application passes down to every orbiting body. *)
Definition App_frame (s : AppState) (delta : number) : Frame :=
  {| f_starScale := scale (starStats s);
     f_exploded := exploded s;
     f_mass := mass s;
     f_age := age s;
     f_delta := delta |}.

(** The updater given to [setAge] by the interval callback: the next age,
    and whether the updater called [setIsPlaying(false)]. *)
Definition age_updater (prev : number) : number * bool :=
  if (prev >=? 14.9)%js then (Fin 15, true)
  else ((prev + 0.05)%js, false).

(** One firing of the 50 ms interval. *)
Definition interval_tick (s : AppState) : AppState :=
  let '(a, stop) := age_updater (age s) in
  let s := setAge a s in
  if stop then setIsPlaying false s else s.

(** The effect installs the interval only under this guard. *)
Definition interval_installed (s : AppState) : bool :=
  isPlaying s && (age s <? 15)%js.

(** 50 ms of playback: the interval fires if it is installed. *)
Definition playback_step (s : AppState) : AppState :=
  if interval_installed s then interval_tick s else s.

Definition toggleTime (s : AppState) : AppState :=
  setIsPlaying (negb (isPlaying s)) s.

Definition reset (s : AppState) : AppState :=
  {| mass := mass s; age := 0; exploded := false; isPlaying := false;
     focusTarget := None; selectedPlanet := None;
     resetKey := S (resetKey s) |}.

(** The application together with the timers of [setTimeout]: the clock in
    milliseconds and the deadlines of the pending revert callbacks, in the
    order they were scheduled. *)
Record World : Type := mkWorld {
  app : AppState;
  clock : Z;
  timeouts : list Z
}.

Definition World_initial : World :=
  {| app := App_initial; clock := 0%Z; timeouts := [] |}.

Definition triggerDeath (w : World) : World :=
  {| app := setExploded true (app w);
     clock := clock w;
     timeouts := timeouts w ++ [(clock w + 2000)%Z] |}.

Definition due (t : Z) (deadline : Z) : bool := (deadline <=? t)%Z.

(** [dt] milliseconds pass with no input: every callback whose deadline is
    reached runs [setExploded(false)] and leaves the list. *)
Definition elapse (dt : Z) (w : World) : World :=
  let t := (clock w + dt)%Z in
  {| app := if existsb (due t) (timeouts w)
            then setExploded false (app w) else app w;
     clock := t;
     timeouts := filter (fun d => negb (due t d)) (timeouts w) |}.

(** The reset button: the handler touches no timer. *)
Definition World_reset (w : World) : World :=
  {| app := reset (app w); clock := clock w; timeouts := timeouts w |}.

Inductive Event : Type :=
| Elapse (dt : Z)
| TriggerDeath
| Reset.

Definition World_step (w : World) (e : Event) : World :=
  match e with
  | Elapse dt => elapse dt w
  | TriggerDeath => triggerDeath w
  | Reset => World_reset w
  end.

Definition World_run (w : World) (es : list Event) : World :=
  fold_left World_step es w.

Definition isExploding (w : World) : bool := exploded (app w).



(** *** How the belts are generated *)

(** One element of the array built at the first render of [AsteroidBelt],
    from the five values that [Math.random] returns for it; the spin of the
    particle is not modelled. *)
Definition AsteroidBelt_make
  (r_angle r_dist r_speed r_yOffset r_size : number) : Particle :=
  {| p_angle := (r_angle * Math.PI * 2)%js;
     p_dist := (10.5 + r_dist * 2.5)%js;
     p_speed := (0.5 + r_speed * 0.5)%js;
     p_yOffset := ((r_yOffset - 0.5) * 1.5)%js;
     p_size := (0.05 + r_size * 0.08)%js |}.

Definition KuiperBelt_make
  (r_angle r_dist r_speed r_yOffset r_size : number) : Particle :=
  {| p_angle := (r_angle * Math.PI * 2)%js;
     p_dist := (30.0 + r_dist * 20.0)%js;
     p_speed := (0.1 + r_speed * 0.2)%js;
     p_yOffset := ((r_yOffset - 0.5) * 3.0)%js;
     p_size := (0.08 + r_size * 0.1)%js |}.

Definition kuiper_step (p : Particle) (f : Frame) : Particle :=
  fst (KuiperBelt_particle (f_mass f) (f_age f) (f_exploded f)
         (f_starScale f) (f_delta f) p).

(** *** The star and the shockwave *)

Definition uniform (s : number) : Vec3 := {| vx := s; vy := s; vz := s |}.

(** The frame callback of [Star] on the scale of its mesh; the rotation of
    the mesh is not modelled. *)
Definition Star_frame (settings : StarStats) (exploded : bool)
  (meshScale : Vec3) : Vec3 :=
  let targetScale := if exploded then Fin 20 else scale settings in
  lerp meshScale (uniform targetScale) (if exploded then Fin 0.1 else Fin 0.05).

(** [THREE.MathUtils.lerp]. *)
Definition MathUtils_lerp (x y t : number) : number :=
  ((1 - t) * x + t * y)%js.

Record ShockwaveMesh : Type := mkShockwaveMesh {
  sw_scale : Vec3;
  sw_opacity : number
}.

(** The ring as it is mounted: unit scale, opaque. *)
Definition Shockwave_mount : ShockwaveMesh :=
  {| sw_scale := uniform 1; sw_opacity := 1 |}.

(** The frame callback of [Shockwave], on the mesh the ref holds, if any. *)
Definition Shockwave_frame (exploded : bool) (mesh : option ShockwaveMesh)
  : option ShockwaveMesh :=
  match mesh with
  | Some m =>
      if exploded then
        Some {| sw_scale := uniform (MathUtils_lerp (vx (sw_scale m)) 60 0.05);
                sw_opacity := MathUtils_lerp (sw_opacity m) 0 0.05 |}
      else Some {| sw_scale := uniform 1; sw_opacity := 1 |}
  | None => None
  end.

(** The render function of [Shockwave]: the ring exists only while the
    explosion is active, and a ring that is already there is kept. *)
Definition Shockwave_render (exploded : bool) (mesh : option ShockwaveMesh)
  : option ShockwaveMesh :=
  if exploded then
    match mesh with
    | Some m => Some m
    | None => Some Shockwave_mount
    end
  else None.

(** *** Focus and selection *)

Definition clearSelection (s : AppState) : AppState :=
  {| mass := mass s; age := age s; exploded := exploded s;
     isPlaying := isPlaying s; focusTarget := None;
     selectedPlanet := None; resetKey := resetKey s |}.

(** [handleClick] of a planet: focus on its mesh and select its data. *)
Definition SinglePlanet_handleClick (data : PlanetData) (s : AppState)
  : AppState :=
  {| mass := mass s; age := age s; exploded := exploded s;
     isPlaying := isPlaying s; focusTarget := Some (name data);
     selectedPlanet := Some (name data); resetKey := resetKey s |}.

Definition Star_handleClick (s : AppState) : AppState := clearSelection s.

Definition handleBackgroundClick (s : AppState) : AppState :=
  clearSelection s.

(** The application with the planets mounted under it. *)
Record Scene : Type := mkScene {
  sc_app : AppState;
  sc_planets : list (PlanetData * PlanetState)
}.

Definition Scene_mount (s : AppState) (angles : list number) : Scene :=
  {| sc_app := s;
     sc_planets := combine planets (map SinglePlanet_mount angles) |}.

(** One rendered frame: every planet runs its frame callback with the props
    of the application, and a callback that makes its planet inert clears
    the focus and the selection. *)
Definition Scene_frame (delta : number) (sc : Scene) : Scene :=
  let f := App_frame (sc_app sc) delta in
  let results :=
    map (fun ds : PlanetData * PlanetState =>
           (fst ds,
            SinglePlanet_frame (fst ds) (f_starScale f) (f_exploded f)
              (f_mass f) (f_age f) (f_delta f) (snd ds)))
        (sc_planets sc) in
  {| sc_app := if existsb (fun r => snd (snd r)) results
               then clearSelection (sc_app sc) else sc_app sc;
     sc_planets := map (fun r => (fst r, fst (snd r))) results |}.

(** A click on the [i]-th planet; an inert planet renders nothing and
    cannot be clicked. *)
Definition Scene_click (i : nat) (sc : Scene) : Scene :=
  match nth_error (sc_planets sc) i with
  | Some (data, st) =>
      if isDead st then sc
      else {| sc_app := SinglePlanet_handleClick data (sc_app sc);
              sc_planets := sc_planets sc |}
  | None => sc
  end.

Inductive SceneEvent : Type :=
| FrameEvent (delta : number)
| ClickPlanet (i : nat)
| ClickStar
| ClickBackground
| SetMass (m : number)
| SetAge (a : number)
| ToggleTime
| IntervalTick
| SetExploded (b : bool)
| ResetScene (angles : list number).

Definition onApp (g : AppState -> AppState) (sc : Scene) : Scene :=
  {| sc_app := g (sc_app sc); sc_planets := sc_planets sc |}.

Definition Scene_step (sc : Scene) (e : SceneEvent) : Scene :=
  match e with
  | FrameEvent delta => Scene_frame delta sc
  | ClickPlanet i => Scene_click i sc
  | ClickStar => onApp Star_handleClick sc
  | ClickBackground => onApp handleBackgroundClick sc
  | SetMass m => onApp (setMass m) sc
  | SetAge a => onApp (setAge a) sc
  | ToggleTime => onApp toggleTime sc
  | IntervalTick => onApp playback_step sc
  | SetExploded b => onApp (setExploded b) sc
  | ResetScene angles => Scene_mount (reset (sc_app sc)) angles
  end.

Definition Scene_run (sc : Scene) (es : list SceneEvent) : Scene :=
  fold_left Scene_step es sc.


End App.

(** ** The stand-alone hook, [hooks/useStarPhysics.js] *)

Module Hook.

Record StarStats : Type := mkStarStats {
  color : string;
  scale : number;
  stage : string;
  description : string;
  progress : number
}.

Definition lifespan (mass : number) : number :=
  (10 / (mass * mass))%js.

Definition useStarPhysics (mass age : number) : StarStats :=
  let lifespan := lifespan mass in
  let progress := (age / lifespan)%js in
  if (progress <? 0.1)%js then
    {| color := "#ffffff"; scale := (mass * 0.5)%js; stage := "Proto-Star";
       description := "A gas cloud collapsing under gravity.";
       progress := progress |}
  else if (progress <? 0.9)%js then
    if (mass <? 0.8)%js then
      {| color := "#ff5555"; scale := mass; stage := "Red Dwarf";
         description := "Burning slowly. Will live essentially forever.";
         progress := progress |}
    else if (mass >? 8)%js then
      {| color := "#5588ff"; scale := (mass * 1.5)%js;
         stage := "Blue Supergiant";
         description := "Burning fuel rapidly. Violent death imminent.";
         progress := progress |}
    else
      {| color := "#ffaa00"; scale := mass; stage := "Main Sequence";
         description := "Stable life. Capable of supporting liquid water.";
         progress := progress |}
  else if (mass <=? 8)%js then
    {| color := "#ff0000"; scale := (mass * 4)%js; stage := "Red Giant";
       description := "Expanding. Consuming inner planets.";
       progress := progress |}
  else
    {| color := "#8800ff"; scale := (mass * 0.8)%js; stage := "Wolf-Rayet";
       description := "Core collapse imminent. Supernova incoming.";
       progress := progress |}.

End Hook.

(** ** The constants as the specification writes them, over the reals *)

Module Spec.

Definition lifespan (m : R) : R := 10 / Rpower m 2.5 + 0.5.

Definition redGiantEnd (m : R) : R := 1.2 * lifespan m.

Definition baseSize (m : R) : R := ln (m + 1) * 1.5.

Definition phaseProgress (m a : R) : R :=
  (a - lifespan m) / (redGiantEnd m - lifespan m).

(** The mass multiplier in the specification's three cases. *)
Definition massMultiplier (m a : R) : R :=
  if Rle_dec a (lifespan m) then 1
  else if Rlt_dec a (redGiantEnd m) then 1 - 0.6 * phaseProgress m a
  else 0.4.

(** The engulfment check as the specification words it: evaluated while
    [lifespan <= age < redGiantEnd], it makes a body inert when
    [starScale > distanceFromCenter * threshold]. *)
Definition engulfment_window (lifespan redGiantEnd age : number) : bool :=
  (lifespan <=? age)%js && (age <? redGiantEnd)%js.

Definition engulfed
  (threshold starScale distanceFromCenter lifespan redGiantEnd age : number)
  : bool :=
  engulfment_window lifespan redGiantEnd age
  && (starScale >? distanceFromCenter * threshold)%js.

(** The defensive treatment of inputs as the specification words it: the
    mass is clamped to [0.5, 15] and the age to [0, 15] before the
    computation, so that every result is the result for the clamped
    values. A value in range is its own clamped value. *)
Definition mass_in_range (x : number) : Prop :=
  exists r : R, x = Fin r /\ 0.5 <= r <= 15.

Definition age_in_range (x : number) : Prop :=
  exists r : R, x = Fin r /\ 0 <= r <= 15.

Definition clamped_mass (x x' : number) : Prop :=
  mass_in_range x' /\ (mass_in_range x -> x' = x).

Definition clamped_age (x x' : number) : Prop :=
  age_in_range x' /\ (age_in_range x -> x' = x).

Definition clamps_inputs {A : Type} (f : number -> number -> A) : Prop :=
  forall mass age : number,
    exists mass' age' : number,
      clamped_mass mass mass' /\ clamped_age age age'
      /\ f mass age = f mass' age'.

End Spec.

(** ** Notions used to state properties of the model *)

Module Props.

(** The place of a stage in the life of a star. *)
Definition stage_rank (s : App.Stage) : nat :=
  match s with
  | App.MainSequence => 0
  | App.RedGiant => 1
  | App.Supernova | App.WhiteDwarf => 2
  end.

(** A value that [Math.random] can return. *)
Definition random_value (x : number) : Prop :=
  exists r : R, x = Fin r /\ 0 <= r < 1.

(** The passage of time in a list of events is never negative. *)
Definition forward (e : App.Event) : Prop :=
  match e with
  | App.Elapse dt => (0 <= dt)%Z
  | _ => True
  end.

(** What holds of the timers in every state the application can reach:
    a pending revert is due later than now and within 2000 ms, and an
    active explosion has a revert pending. *)
Definition timers_ok (w : App.World) : Prop :=
  (forall d, In d (App.timeouts w) ->
     (App.clock w < d <= App.clock w + 2000)%Z)
  /\ (App.isExploding w = true -> App.timeouts w <> []).

(** The focus and the selection go together, and a selected planet is a
    mounted planet that is not inert. *)
Definition selection_ok (sc : App.Scene) : Prop :=
  App.focusTarget (App.sc_app sc) = App.selectedPlanet (App.sc_app sc)
  /\ forall n,
       App.selectedPlanet (App.sc_app sc) = Some n ->
       exists data st,
         In (data, st) (App.sc_planets sc)
         /\ App.name data = n /\ App.isDead st = false.

Definition finite (x : number) : Prop := exists r : R, x = Fin r.

Definition positive (x : number) : Prop := exists r : R, x = Fin r /\ 0 < r.

(** The events the application can receive: frame times, ages and angles
    are finite numbers, and a mass is a finite number above 0. *)
Definition valid_event (e : App.SceneEvent) : Prop :=
  match e with
  | App.FrameEvent delta => finite delta
  | App.SetMass m => positive m
  | App.SetAge a => finite a
  | App.ResetScene angles => Forall finite angles
  | _ => True
  end.

(** The mass is positive, the age finite, and every mounted planet is a
    planet of the catalogue at a finite angle that is not inert. *)
Definition scene_alive (sc : App.Scene) : Prop :=
  positive (App.mass (App.sc_app sc))
  /\ finite (App.age (App.sc_app sc))
  /\ forall data st,
       In (data, st) (App.sc_planets sc) ->
       In data App.planets /\ App.isDead st = false
       /\ finite (App.angle st).

End Props.

(** ** Facts about [number] arithmetic on finite values *)

Lemma lt_Fin (a b : R) : (Fin a <? Fin b)%js = true <-> a < b.
Proof.
simpl. destruct (Rlt_dec a b); split; intros; try easy; lra.
Qed.

Lemma le_Fin (a b : R) : (Fin a <=? Fin b)%js = true <-> a <= b.
Proof.
simpl. destruct (Rle_dec a b); split; intros; try easy; lra.
Qed.

Lemma ge_Fin (a b : R) : (Fin a >=? Fin b)%js = true <-> a >= b.
Proof.
unfold Num.ge. rewrite le_Fin. lra.
Qed.

Lemma lt_NaN_l (y : number) : (NaN <? y)%js = false.
Proof.
destruct y; reflexivity.
Qed.

Lemma lt_NaN_r (x : number) : (x <? NaN)%js = false.
Proof.
destruct x; reflexivity.
Qed.

Lemma le_NaN_l (y : number) : (NaN <=? y)%js = false.
Proof.
destruct y; reflexivity.
Qed.

Lemma le_NaN_r (x : number) : (x <=? NaN)%js = false.
Proof.
destruct x; reflexivity.
Qed.

Lemma is_zero_true (r : R) : Num.is_zero r = true <-> r = 0.
Proof.
unfold Num.is_zero. destruct (Req_dec_T r 0); split; intros; easy.
Qed.

Lemma is_zero_neq (r : R) : r <> 0 -> Num.is_zero r = false.
Proof.
unfold Num.is_zero. destruct (Req_dec_T r 0); easy.
Qed.

Lemma nonneg_true (r : R) : 0 <= r -> Num.nonneg r = true.
Proof.
unfold Num.nonneg. destruct (Rle_dec 0 r); easy.
Qed.

Lemma nonneg_false (r : R) : r < 0 -> Num.nonneg r = false.
Proof.
unfold Num.nonneg. destruct (Rle_dec 0 r); [lra | easy].
Qed.

Lemma add_Fin (a b : R) : (Fin a + Fin b)%js = Fin (a + b).
Proof.
reflexivity.
Qed.

Lemma sub_Fin (a b : R) : (Fin a - Fin b)%js = Fin (a - b).
Proof.
reflexivity.
Qed.

Lemma mul_Fin (a b : R) : (Fin a * Fin b)%js = Fin (a * b).
Proof.
reflexivity.
Qed.

Lemma div_Fin (a b : R) : b <> 0 -> (Fin a / Fin b)%js = Fin (a / b).
Proof.
intros Hb. simpl. now rewrite is_zero_neq.
Qed.

Lemma pow_Fin (b e : R) :
  0 < b -> e <> 0 -> Math.pow (Fin b) (Fin e) = Fin (Rpower b e).
Proof.
intros Hb He. unfold Math.pow.
rewrite (is_zero_neq e), (is_zero_neq b), nonneg_true by lra.
reflexivity.
Qed.

Lemma log_Fin (a : R) : 0 < a -> Math.log (Fin a) = Fin (ln a).
Proof.
intros Ha. unfold Math.log.
rewrite is_zero_neq, nonneg_true by lra.
reflexivity.
Qed.

Lemma sqrt_Fin (a : R) : 0 <= a -> Math.sqrt (Fin a) = Fin (sqrt a).
Proof.
intros Ha. unfold Math.sqrt. now rewrite nonneg_true.
Qed.

Lemma Rpower_pos (x y : R) : 0 < Rpower x y.
Proof.
apply exp_pos.
Qed.

Lemma Rpower_1_l (y : R) : Rpower 1 y = 1.
Proof.
unfold Rpower. rewrite ln_1, Rmult_0_r. apply exp_0.
Qed.

(** ** The constants of the physics engine on a finite positive mass *)

Lemma spec_lifespan_gt (m : R) : 0.5 < Spec.lifespan m.
Proof.
unfold Spec.lifespan.
assert (0 < 10 / Rpower m 2.5).
{ apply Rdiv_lt_0_compat; [lra | apply Rpower_pos]. }
lra.
Qed.

Lemma spec_redGiantEnd_gt (m : R) : Spec.lifespan m < Spec.redGiantEnd m.
Proof.
unfold Spec.redGiantEnd. pose proof (spec_lifespan_gt m). lra.
Qed.

Lemma lifespan_expr_Fin (m : R) :
  0 < m -> (10 / Math.pow (Fin m) 2.5 + 0.5)%js = Fin (Spec.lifespan m).
Proof.
intros Hm. rewrite pow_Fin by lra.
rewrite div_Fin by (pose proof (Rpower_pos m 2.5); lra).
reflexivity.
Qed.

Lemma star_lifespan_Fin (m : R) :
  0 < m -> App.star_lifespan (Fin m) = Fin (Spec.lifespan m).
Proof.
apply lifespan_expr_Fin.
Qed.

Lemma star_deathStart_Fin (m : R) :
  0 < m -> App.star_deathStart (Fin m) = Fin (Spec.redGiantEnd m).
Proof.
intros Hm. unfold App.star_deathStart. rewrite star_lifespan_Fin by exact Hm.
simpl. f_equal. unfold Spec.redGiantEnd. lra.
Qed.

Lemma star_baseSize_Fin (m : R) :
  0 < m -> App.star_baseSize (Fin m) = Fin (Spec.baseSize m).
Proof.
intros Hm. unfold App.star_baseSize. simpl Num.add.
rewrite log_Fin by lra. reflexivity.
Qed.

(** Arithmetic on finite numbers is real arithmetic. *)
Ltac fin_arith :=
  repeat (rewrite ?add_Fin, ?sub_Fin, ?mul_Fin;
          try (rewrite div_Fin by lra)).

(** Case analysis on a comparison of two finite numbers. *)
Ltac cmp_cases :=
  repeat match goal with
  | |- context [Rlt_dec ?a ?b] => destruct (Rlt_dec a b)
  | |- context [Rle_dec ?a ?b] => destruct (Rle_dec a b)
  | H : context [Rlt_dec ?a ?b] |- _ => destruct (Rlt_dec a b)
  | H : context [Rle_dec ?a ?b] |- _ => destruct (Rle_dec a b)
  end.

Lemma div_lt_1 (x d : R) : 0 < d -> x < d -> x / d < 1.
Proof.
intros Hd Hx. apply (Rmult_lt_reg_r d); [exact Hd |].
unfold Rdiv. rewrite Rmult_assoc, Rinv_l by lra. lra.
Qed.

Lemma div_gt_0 (x d : R) : 0 < d -> 0 < x -> 0 < x / d.
Proof.
intros Hd Hx. now apply Rdiv_lt_0_compat.
Qed.

Lemma phaseProgress_bounds (m a : R) :
  Spec.lifespan m < a -> a < Spec.redGiantEnd m ->
  0 < Spec.phaseProgress m a < 1.
Proof.
intros H1 H2. unfold Spec.phaseProgress. split.
- apply div_gt_0; lra.
- apply div_lt_1; lra.
Qed.

Lemma getSystemPhysics_lifespan (m : R) (age : number) :
  0 < m ->
  App.lifespan (App.getSystemPhysics (Fin m) age) = Fin (Spec.lifespan m).
Proof.
intros Hm. unfold App.getSystemPhysics. cbn [App.lifespan].
now apply lifespan_expr_Fin.
Qed.

Lemma getSystemPhysics_redGiantEnd (m : R) (age : number) :
  0 < m ->
  App.redGiantEnd (App.getSystemPhysics (Fin m) age)
  = Fin (Spec.redGiantEnd m).
Proof.
intros Hm. unfold App.getSystemPhysics. cbn [App.redGiantEnd].
rewrite lifespan_expr_Fin by exact Hm. rewrite mul_Fin.
f_equal. unfold Spec.redGiantEnd. lra.
Qed.

Lemma getSystemPhysics_currentMass (m : R) (age : number) :
  0 < m ->
  App.currentMass (App.getSystemPhysics (Fin m) age)
  = (Fin m * App.massMultiplier (Fin (Spec.lifespan m))
                (Fin (Spec.redGiantEnd m)) age)%js.
Proof.
intros Hm.
pose proof (getSystemPhysics_redGiantEnd m age Hm) as He.
unfold App.getSystemPhysics in *. cbn [App.currentMass App.redGiantEnd] in *.
rewrite He. rewrite lifespan_expr_Fin by exact Hm. reflexivity.
Qed.

(** The multiplier as a real number, by the position of a finite age. *)
Lemma massMultiplier_Fin (m a : R) :
  App.massMultiplier (Fin (Spec.lifespan m)) (Fin (Spec.redGiantEnd m)) (Fin a)
  = Fin (Spec.massMultiplier m a).
Proof.
pose proof (spec_redGiantEnd_gt m) as He.
unfold App.massMultiplier, Spec.massMultiplier, Num.gt, Num.ge.
cbn [Num.lt Num.le].
cmp_cases; try lra; cbn [andb]; fin_arith; f_equal;
  unfold Spec.phaseProgress; lra.
Qed.


(** ** The orbiting bodies on finite inputs *)

Lemma spec_massMultiplier_bounds (m a : R) :
  0.4 <= Spec.massMultiplier m a <= 1.
Proof.
pose proof (spec_redGiantEnd_gt m) as He.
unfold Spec.massMultiplier. cmp_cases; try lra.
assert (0 < Spec.phaseProgress m a < 1) by (apply phaseProgress_bounds; lra).
lra.
Qed.

Lemma currentMass_Fin (m a : R) :
  0 < m ->
  App.currentMass (App.getSystemPhysics (Fin m) (Fin a))
  = Fin (m * Spec.massMultiplier m a).
Proof.
intros Hm. rewrite getSystemPhysics_currentMass by exact Hm.
now rewrite massMultiplier_Fin.
Qed.

(** On a circle the distance from the centre, measured in the orbital
    plane, is the radius. *)
Lemma distFromCenter_circular (d theta : R) :
  0 <= d ->
  App.distFromCenter
    {| App.vx := Fin (cos theta * d); App.vy := Fin 0;
       App.vz := Fin (sin theta * d) |} = Fin d.
Proof.
intros Hd. unfold App.distFromCenter. cbn [App.vx App.vz]. fin_arith.
assert (E : cos theta * d * (cos theta * d) + sin theta * d * (sin theta * d)
            = d * d).
{ pose proof (sin2_cos2 theta) as H. unfold Rsqr in H.
  transitivity ((sin theta * sin theta + cos theta * cos theta) * (d * d));
    [ring | rewrite H; ring]. }
rewrite E. rewrite sqrt_Fin by nra. now rewrite sqrt_square.
Qed.

(** The target of a planet on a circular orbit, for a finite positive mass,
    a finite age and a finite angle. *)
Lemma frame_target_circular (data : App.PlanetData) (st : App.PlanetState)
  (m a d theta : R) :
  0 < m -> App.isEccentric data = false ->
  App.baseDist data = Fin d -> App.angle st = Fin theta ->
  App.frame_target data (Fin m) (Fin a) st
  = {| App.vx := Fin (cos theta
                      * (d * Rpower m 0.5 * (m / (m * Spec.massMultiplier m a))));
       App.vy := Fin 0;
       App.vz := Fin (sin theta
                      * (d * Rpower m 0.5 * (m / (m * Spec.massMultiplier m a)))) |}.
Proof.
intros Hm He Hd Ht.
pose proof (spec_massMultiplier_bounds m a) as Hk.
unfold App.frame_target, App.planet_target, App.agingExpansion,
  App.initialSystemScale.
rewrite He, Hd, Ht, currentMass_Fin, pow_Fin by lra.
rewrite (div_Fin m) by nra. reflexivity.
Qed.

Lemma particle_currentDist_Fin (p : App.Particle) (m a d : R) :
  0 < m -> App.p_dist p = Fin d ->
  App.particle_currentDist (Fin m) (Fin a) p
  = Fin (d * (m / (m * Spec.massMultiplier m a) * Rpower m 0.5)).
Proof.
intros Hm Hd.
pose proof (spec_massMultiplier_bounds m a) as Hk.
unfold App.particle_currentDist, App.agingExpansion, App.initialSystemScale.
rewrite Hd, currentMass_Fin, pow_Fin by lra.
rewrite (div_Fin m) by nra. reflexivity.
Qed.

(** Whether a frame makes a planet inert, for a planet that is not. *)
Lemma SinglePlanet_frame_isDead
  (data : App.PlanetData) (starScale : number) (exploded : bool)
  (starMass starAge delta : number) (st : App.PlanetState) :
  App.isDead st = false ->
  App.isDead (fst (App.SinglePlanet_frame data starScale exploded starMass
                     starAge delta st))
  = negb exploded
    && App.planet_engulfed starScale starAge
         (App.lifespan (App.getSystemPhysics starMass starAge))
         (App.redGiantEnd (App.getSystemPhysics starMass starAge))
         (App.frame_target data starMass starAge st).
Proof.
intros Hd. unfold App.SinglePlanet_frame, App.frame_target. rewrite Hd.
destruct exploded; cbn [orb negb andb fst App.isDead]; [exact Hd |].
match goal with |- (if ?b then _ else _) = _ => destruct b end;
  reflexivity.
Qed.


Lemma Spec_lifespan_1 : Spec.lifespan 1 = 10.5.
Proof.
unfold Spec.lifespan. rewrite Rpower_1_l. lra.
Qed.

Lemma Spec_redGiantEnd_1 : Spec.redGiantEnd 1 = 12.6.
Proof.
unfold Spec.redGiantEnd. rewrite Spec_lifespan_1. lra.
Qed.

(** The drift factor [mass / currentMass] lies between 1 and 2.5. *)
Lemma agingExpansion_bounds (m k : R) :
  0 < m -> 0.4 <= k <= 1 -> 1 <= m / (m * k) <= 2.5.
Proof.
intros Hm Hk.
assert (E : m / (m * k) * k = 1) by (field; lra).
assert (P : 0 < m / (m * k)) by (apply div_gt_0; nra).
split; nra.
Qed.

(** The scale an inner-belt particle is drawn with. *)
Lemma AsteroidBelt_particle_scale
  (m : R) (age starScale delta : number) (exploded : bool) (p : App.Particle) :
  0 < m ->
  App.i_scale (snd (App.AsteroidBelt_particle (Fin m) age exploded starScale
                      delta p))
  = if exploded
       || ((age >? Fin (Spec.lifespan m))%js
           && (age <? Fin (Spec.redGiantEnd m))%js
           && (starScale >? App.particle_currentDist (Fin m) age p * 0.9)%js)
    then Fin 0 else App.p_size p.
Proof.
intros Hm. unfold App.AsteroidBelt_particle, App.particle_currentDist.
cbn [snd App.i_scale].
rewrite getSystemPhysics_lifespan, getSystemPhysics_redGiantEnd by exact Hm.
destruct exploded; cbn [orb]; [reflexivity |].
match goal with |- (if ?b then _ else _) = _ => destruct b end; reflexivity.
Qed.





(** ** Stage selection *)

(** C1. For a finite mass [m > 0] and every age, [useStarPhysics] selects
    the stage by the three conditions of the specification, boundaries
    belonging to the later stage: [age < lifespan] gives Main Sequence with
    scale [baseSize]; [lifespan <= age < redGiantEnd] gives Red Giant with
    scale [baseSize * (1 + 5 * phaseProgress)]; [age >= redGiantEnd] gives
    Supernova when [m > 8] and White Dwarf otherwise, with scale
    [baseSize * 0.5] or [baseSize * 0.2]. Every age that is not NaN meets
    one of the three conditions, and at [age = lifespan] the stage is
    Red Giant. Here [baseSize = ln (m + 1) * 1.5]. *)
Theorem useStarPhysics_stage_selection (m : R) (age : number) :
  0 < m ->
  let st := App.useStarPhysics (Fin m) age in
  let l := Fin (Spec.lifespan m) in
  let e := Fin (Spec.redGiantEnd m) in
  let b := Fin (Spec.baseSize m) in
  ((age <? l)%js = true ->
     App.stage st = App.MainSequence /\ App.scale st = b)
  /\ ((l <=? age)%js = true -> (age <? e)%js = true ->
     App.stage st = App.RedGiant
     /\ App.scale st = (b * (1 + 5 * ((age - l) / (e - l))))%js)
  /\ ((age >=? e)%js = true ->
     App.stage st = (if (Fin m >? 8)%js then App.Supernova else App.WhiteDwarf)
     /\ App.scale st = (if (Fin m >? 8)%js then b * 0.5 else b * 0.2)%js)
  /\ (age <> NaN ->
     (age <? l)%js = true
     \/ ((l <=? age)%js = true /\ (age <? e)%js = true)
     \/ (age >=? e)%js = true)
  /\ App.stage (App.useStarPhysics (Fin m) l) = App.RedGiant.
Proof.
intros Hm st l e b. subst st l e b.
pose proof (spec_lifespan_gt m) as Hl.
pose proof (spec_redGiantEnd_gt m) as He.
unfold App.useStarPhysics, App.star_redGiantStart.
rewrite star_lifespan_Fin, star_deathStart_Fin, star_baseSize_Fin by exact Hm.
split; [| split; [| split; [| split]]].
- intros H. now rewrite H.
- intros H1 H2. destruct age as [| | |a]; try discriminate.
  apply le_Fin in H1. apply lt_Fin in H2.
  cbn [Num.lt Num.le Num.ge andb]. cmp_cases; try lra.
  cbn [andb App.stage App.scale]. split; [reflexivity |].
  fin_arith. f_equal. lra.
- intros H. destruct age as [| | |a]; try discriminate.
  + simpl. destruct (Fin m >? 8)%js; split; reflexivity.
  + apply ge_Fin in H. simpl Num.lt. simpl Num.ge. cmp_cases; try lra; simpl;
      destruct (Num.gt (Fin m) 8); split; reflexivity.
- intros Hn. destruct age as [| | |a]; try congruence.
  + right; right. reflexivity.
  + left. reflexivity.
  + simpl. unfold Num.ge. simpl. cmp_cases; auto; lra.
- cbn [Num.lt Num.le Num.ge]. cmp_cases; try lra; reflexivity.
Qed.

(** The statement of C1 at mass 1 and age 10.5, the lifespan of that mass. *)
Lemma useStarPhysics_stage_selection_witness :
  0 < 1 /\ App.stage (App.useStarPhysics (Fin 1) (Fin (Spec.lifespan 1)))
           = App.RedGiant.
Proof.
split; [lra |].
apply (useStarPhysics_stage_selection 1 (Fin (Spec.lifespan 1))). lra.
Defined.

(** ** The lifecycle constants *)

(** C2, as the specification states it, fails for the stand-alone hook:
    it is not true that for every mass in [0.5, 15] the hook's lifespan is
    [10 / mass^2.5 + 0.5]. At mass 1 the hook computes 10, not 10.5. *)
Lemma hook_lifespan_is_not_spec_lifespan :
  ~ (forall m : R, 0.5 <= m <= 15 ->
       Hook.lifespan (Fin m) = Fin (Spec.lifespan m)).
Proof.
intros H. specialize (H 1). unfold Hook.lifespan in H.
rewrite mul_Fin, div_Fin in H by lra.
assert (E : Fin (10 / (1 * 1)) = Fin (Spec.lifespan 1)) by (apply H; lra).
injection E as E. unfold Spec.lifespan in E. rewrite Rpower_1_l in E. lra.
Qed.

(** C2, amended. For every mass in [0.5, 15], both functions of the
    application source, [useStarPhysics] and [getSystemPhysics], compute
    [lifespan = 10 / mass^2.5 + 0.5 > 0] and
    [redGiantEnd = 1.2 * lifespan > lifespan]; the stand-alone hook
    computes [lifespan = 10 / mass^2], also positive, and no red-giant
    end. *)
Theorem lifecycle_constants (m : R) (age : number) :
  0.5 <= m <= 15 ->
  App.star_lifespan (Fin m) = Fin (10 / Rpower m 2.5 + 0.5)
  /\ App.star_redGiantStart (Fin m) = Fin (10 / Rpower m 2.5 + 0.5)
  /\ App.star_deathStart (Fin m) = Fin (1.2 * (10 / Rpower m 2.5 + 0.5))
  /\ App.lifespan (App.getSystemPhysics (Fin m) age)
     = Fin (10 / Rpower m 2.5 + 0.5)
  /\ App.redGiantEnd (App.getSystemPhysics (Fin m) age)
     = Fin (1.2 * (10 / Rpower m 2.5 + 0.5))
  /\ 0 < 10 / Rpower m 2.5 + 0.5 < 1.2 * (10 / Rpower m 2.5 + 0.5)
  /\ Hook.lifespan (Fin m) = Fin (10 / (m * m))
  /\ 0 < 10 / (m * m).
Proof.
intros [Hlo Hhi]. assert (Hm : 0 < m) by lra.
pose proof (spec_lifespan_gt m) as Hl. unfold Spec.lifespan in Hl.
repeat split.
- now apply star_lifespan_Fin.
- now apply star_lifespan_Fin.
- now apply star_deathStart_Fin.
- now apply getSystemPhysics_lifespan.
- now apply getSystemPhysics_redGiantEnd.
- lra.
- lra.
- unfold Hook.lifespan. rewrite mul_Fin. apply div_Fin. nra.
- apply div_gt_0; nra.
Qed.

(** C2, amended, at mass 1 and age 0. *)
Lemma lifecycle_constants_witness :
  0.5 <= 1 <= 15
  /\ App.star_lifespan (Fin 1) = Fin (10 / Rpower 1 2.5 + 0.5)
  /\ Hook.lifespan (Fin 1) = Fin (10 / (1 * 1)).
Proof.
assert (H : 0.5 <= 1 <= 15) by lra.
pose proof (lifecycle_constants 1 (Fin 0) H) as T.
split; [exact H |]. split; [apply T | apply T].
Defined.

(** ** System scaling *)

(** C3. For a finite mass [m > 0] and every age, the multiplier that
    [getSystemPhysics] applies to the mass is 1.0 when [age <= lifespan],
    [1 - 0.6 * phaseProgress] when [lifespan < age < redGiantEnd], and 0.4
    when [age >= redGiantEnd]; so it is 1.0 at [age = lifespan] and exactly
    0.4 at [age = redGiantEnd], the value it has for every later age. *)
Theorem massMultiplier_cases (m : R) (age : number) :
  0 < m ->
  let phys := App.getSystemPhysics (Fin m) age in
  let l := Fin (Spec.lifespan m) in
  let e := Fin (Spec.redGiantEnd m) in
  let mult := App.massMultiplier (App.lifespan phys) (App.redGiantEnd phys) in
  App.currentMass phys = (Fin m * mult age)%js
  /\ ((age <=? l)%js = true -> mult age = Fin 1.0)
  /\ ((l <? age)%js = true -> (age <? e)%js = true ->
      mult age = (1 - 0.6 * ((age - l) / (e - l)))%js)
  /\ ((age >=? e)%js = true -> mult age = Fin 0.4)
  /\ mult l = Fin 1.0
  /\ mult e = Fin 0.4.
Proof.
intros Hm phys l e mult. subst phys l e mult.
pose proof (spec_lifespan_gt m) as Hl.
pose proof (spec_redGiantEnd_gt m) as He.
rewrite getSystemPhysics_lifespan, getSystemPhysics_redGiantEnd by exact Hm.
split; [now apply getSystemPhysics_currentMass |].
split; [| split; [| split; [| split]]].
- intros H. destruct age as [| | |a]; try discriminate; [reflexivity |].
  apply le_Fin in H. rewrite massMultiplier_Fin.
  f_equal. unfold Spec.massMultiplier. cmp_cases; lra.
- intros H1 H2. destruct age as [| | |a]; try discriminate.
  apply lt_Fin in H1. apply lt_Fin in H2. rewrite massMultiplier_Fin.
  fin_arith. f_equal. unfold Spec.massMultiplier, Spec.phaseProgress.
  cmp_cases; lra.
- intros H. destruct age as [| | |a]; try discriminate; [reflexivity |].
  apply ge_Fin in H. rewrite massMultiplier_Fin.
  f_equal. unfold Spec.massMultiplier. cmp_cases; lra.
- rewrite massMultiplier_Fin. f_equal. unfold Spec.massMultiplier.
  cmp_cases; lra.
- rewrite massMultiplier_Fin. f_equal. unfold Spec.massMultiplier.
  cmp_cases; lra.
Qed.

(** C3 at mass 1 and age 12.6, the end of the red-giant phase of that
    mass. *)
Lemma massMultiplier_cases_witness :
  0 < 1
  /\ App.massMultiplier (Fin (Spec.lifespan 1)) (Fin (Spec.redGiantEnd 1))
       (Fin (Spec.redGiantEnd 1)) = Fin 0.4.
Proof.
assert (H : 0 < 1) by lra.
pose proof (massMultiplier_cases 1 (Fin 0) H) as T. cbv zeta in T.
rewrite getSystemPhysics_lifespan, getSystemPhysics_redGiantEnd in T
  by exact H.
split; [exact H | apply T].
Defined.

(** The multiplier never falls below 0.4 nor exceeds 1. *)
Lemma massMultiplier_floor (m : R) (age : number) :
  exists k : R,
    App.massMultiplier (Fin (Spec.lifespan m)) (Fin (Spec.redGiantEnd m)) age
    = Fin k /\ 0.4 <= k <= 1.
Proof.
destruct age as [| | |a];
  try (eexists; split; [reflexivity | lra]).
rewrite massMultiplier_Fin. eexists; split; [reflexivity |].
unfold Spec.massMultiplier. cmp_cases; try lra.
assert (0 < Spec.phaseProgress m a < 1) by (apply phaseProgress_bounds; lra).
lra.
Qed.

(** C8. For a finite mass [m > 0] and every age,
    [currentMass = mass * massMultiplier] is a finite number [c] with
    [c >= 0.4 * m > 0]; so neither divisor of the scaling factors is zero:
    [mass / currentMass] divides by [c <> 0], and the speed factor divides
    by [Math.pow(mass, 0.5) = m^0.5 > 0]; both quotients are the finite
    real quotients. *)
Theorem currentMass_floor (m : R) (age : number) :
  0 < m ->
  exists c : R,
    App.currentMass (App.getSystemPhysics (Fin m) age) = Fin c
    /\ 0.4 * m <= c /\ 0 < 0.4 * m /\ c <> 0
    /\ App.agingExpansion (Fin m) (Fin c) = Fin (m / c)
    /\ App.initialSystemScale (Fin m) = Fin (Rpower m 0.5)
    /\ 0 < Rpower m 0.5
    /\ forall speed : R,
         App.currentSpeed (Fin speed) (Fin m) (Fin c)
         = Fin (speed * sqrt c / Rpower m 0.5).
Proof.
intros Hm.
destruct (massMultiplier_floor m age) as [k [Ek Hk]].
exists (m * k).
assert (Hc : 0.4 * m <= m * k) by nra.
pose proof (Rpower_pos m 0.5) as Hp.
rewrite getSystemPhysics_currentMass, Ek by exact Hm.
repeat split; try lra.
- unfold App.agingExpansion. apply div_Fin. lra.
- unfold App.initialSystemScale. apply pow_Fin; lra.
- intros speed. unfold App.currentSpeed, App.initialSystemScale.
  rewrite pow_Fin, sqrt_Fin by lra. rewrite mul_Fin. apply div_Fin. lra.
Qed.

(** C8 at mass 1 and age 12, inside the red-giant phase of that mass. *)
Lemma currentMass_floor_witness :
  0 < 1
  /\ exists c : R,
       App.currentMass (App.getSystemPhysics (Fin 1) (Fin 12)) = Fin c
       /\ 0.4 * 1 <= c.
Proof.
assert (H : 0 < 1) by lra.
destruct (currentMass_floor 1 (Fin 12) H) as [c [E [B _]]].
split; [exact H |]. exists c. split; [exact E | exact B].
Defined.

(** ** The playback clock *)

Lemma age_updater_Fin (a : R) :
  App.age_updater (Fin a)
  = if Rle_dec 14.9 a then (Fin 15, true) else (Fin (a + 0.05), false).
Proof.
unfold App.age_updater, Num.ge. cbn [Num.le].
destruct (Rle_dec 14.9 a); reflexivity.
Qed.

Lemma interval_tick_eq (s : App.AppState) (a : R) :
  App.age s = Fin a ->
  App.interval_tick s
  = if Rle_dec 14.9 a
    then App.setIsPlaying false (App.setAge (Fin 15) s)
    else App.setAge (Fin (a + 0.05)) s.
Proof.
intros Ea. unfold App.interval_tick. rewrite Ea, age_updater_Fin.
destruct (Rle_dec 14.9 a); reflexivity.
Qed.

Lemma playback_step_bounds (s : App.AppState) (a : R) :
  App.age s = Fin a -> 0 <= a <= 15 ->
  exists b : R, App.age (App.playback_step s) = Fin b /\ 0 <= b <= 15.
Proof.
intros Ea Ha. unfold App.playback_step.
destruct (App.interval_installed s).
- rewrite (interval_tick_eq s a Ea).
  destruct (Rle_dec 14.9 a); eexists; (split; [reflexivity | lra]).
- exists a. split; [exact Ea | lra].
Qed.

(** The age stays in [0, 15] however long playback runs. *)
Lemma playback_run_bounds (n : nat) (s : App.AppState) (a : R) :
  App.age s = Fin a -> 0 <= a <= 15 ->
  exists b : R,
    App.age (Nat.iter n App.playback_step s) = Fin b /\ 0 <= b <= 15.
Proof.
intros Ea Ha. induction n as [| n [b [Eb Hb]]].
- exists a. split; [exact Ea | exact Ha].
- cbn [Nat.iter nat_rect]. now apply (playback_step_bounds _ b).
Qed.

(** C10, as the specification states it, fails: it is not true that a
    tick adds exactly 0.05 to the age as long as that stays within the
    clamp value of 15. With playback on at age 14.9 the tick sets the age
    to 15, a step of 0.1, and not to 14.95. *)
Lemma interval_tick_jumps_from_14_9 :
  ~ (forall s a,
       App.isPlaying s = true -> App.age s = Fin a ->
       0 <= a -> a + 0.05 <= 15 ->
       App.age (App.interval_tick s) = Fin (a + 0.05)).
Proof.
intros H.
specialize (H (App.setAge (Fin 14.9) (App.toggleTime App.App_initial)) 14.9
              eq_refl eq_refl).
assert (E : App.age (App.interval_tick
                       (App.setAge (Fin 14.9)
                          (App.toggleTime App.App_initial)))
            = Fin (14.9 + 0.05)) by (apply H; lra).
rewrite (interval_tick_eq
           (App.setAge (Fin 14.9) (App.toggleTime App.App_initial)) 14.9)
  in E by reflexivity.
destruct (Rle_dec 14.9 14.9) as [_ | N]; [| lra].
cbn [App.age App.setIsPlaying App.setAge] in E. injection E as E. lra.
Qed.

(** C10, amended. From every age in [0, 15], one firing of the 50 ms
    interval adds exactly 0.05 to the age and leaves the playing flag
    alone while the age is below 14.9; from 14.9 on it sets the age to 15
    and the playing flag to false, a last step of up to 0.1. The age after
    the tick is again in [0, 15], it is 15 only when playback has been
    stopped, and the same bounds hold after any number of steps of
    playback, each of which fires the interval only while the flag is set
    and the age is below 15. *)
Theorem interval_tick_clamps (s : App.AppState) (a : R) :
  App.age s = Fin a -> 0 <= a <= 15 ->
  let t := App.interval_tick s in
  (a < 14.9 ->
     App.age t = Fin (a + 0.05) /\ App.isPlaying t = App.isPlaying s)
  /\ (14.9 <= a -> App.age t = Fin 15 /\ App.isPlaying t = false)
  /\ (exists a' : R, App.age t = Fin a' /\ 0 <= a' <= 15)
  /\ (App.age t = Fin 15 -> App.isPlaying t = false)
  /\ (forall n : nat,
      exists b : R,
        App.age (Nat.iter n App.playback_step s) = Fin b /\ 0 <= b <= 15)
  /\ (App.interval_installed s = true -> App.playback_step s = t)
  /\ (App.interval_installed s = false -> App.playback_step s = s).
Proof.
intros Ea Ha t. subst t.
unfold App.playback_step. rewrite (interval_tick_eq s a Ea).
split; [| split; [| split; [| split; [| split; [| split]]]]].
- intros H. destruct (Rle_dec 14.9 a); [lra |]. split; reflexivity.
- intros H. destruct (Rle_dec 14.9 a); [| lra]. split; reflexivity.
- destruct (Rle_dec 14.9 a); eexists; (split; [reflexivity | lra]).
- destruct (Rle_dec 14.9 a); [reflexivity |].
  cbn [App.setAge App.age]. intros E. injection E as E. lra.
- intros n. now apply (playback_run_bounds n s a).
- intros H. now rewrite H.
- intros H. now rewrite H.
Qed.

(** C10, amended, at the initial state with playback switched on: the first tick
    takes the age from 0 to 0.05. *)
Lemma interval_tick_clamps_witness :
  App.age (App.toggleTime App.App_initial) = Fin 0 /\ 0 <= 0 <= 15
  /\ App.age (App.interval_tick (App.toggleTime App.App_initial))
     = Fin (0 + 0.05).
Proof.
assert (E : App.age (App.toggleTime App.App_initial) = Fin 0) by reflexivity.
assert (H : 0 <= 0 <= 15) by lra.
split; [exact E |]. split; [exact H |].
apply (interval_tick_clamps _ 0 E H). lra.
Defined.

(** ** Rendering during the explosion *)

(** C7, as the specification states it, fails for the planets: with the
    explosion active, a freshly mounted Mercury is still handed to the
    renderer with a sphere of radius 0.15, not of size zero. *)
Lemma exploded_planet_not_zero_size :
  ~ (forall data st,
       In data App.planets ->
       App.planet_rendered_size data true st = Some (Fin 0)
       \/ App.planet_rendered_size data true st = None).
Proof.
intros H.
specialize (H (App.circular "MERCURY" 3.5 0.15 2.0 false false)
              (App.SinglePlanet_mount (Fin 0))).
destruct H as [H | H].
- left. reflexivity.
- cbv in H. injection H as H. lra.
- discriminate H.
Qed.

(** C7, amended. With the explosion active, every inner-belt particle and
    every Kuiper-belt particle is drawn at scale 0, whatever the mass, the
    age and the star's scale. A planet is not resized: one that is inert is
    not rendered at all, and one that is not inert keeps the sphere of
    radius [size], drawn in the dark colour #111 with its orbit ring, moon,
    rings and label hidden; the nine planets of the catalogue all have a
    positive size. *)
Theorem exploded_rendering :
  (forall mass age starScale delta p,
     App.i_scale (snd (App.AsteroidBelt_particle mass age true starScale
                         delta p)) = Fin 0)
  /\ (forall mass age starScale delta p,
     App.i_scale (snd (App.KuiperBelt_particle mass age true starScale
                         delta p)) = Fin 0)
  /\ (forall data st,
     App.SinglePlanet_render data true st
     = if App.isDead st then None
       else Some {| App.sphereRadius := App.size data;
                    App.sphereColor := "#111";
                    App.orbitRingShown := false;
                    App.moonShown := false;
                    App.ringsShown := false;
                    App.labelShown := false |})
  /\ List.length App.planets = 9%nat
  /\ Forall (fun data => exists r : R, App.size data = Fin r /\ 0 < r)
       App.planets.
Proof.
split; [| split; [| split; [| split]]].
- intros. reflexivity.
- intros. reflexivity.
- intros data st. unfold App.SinglePlanet_render.
  destruct (App.isDead st); [reflexivity |].
  cbn [negb andb]. now rewrite !andb_false_r.
- reflexivity.
- unfold App.planets.
  repeat (constructor; [eexists; split; [reflexivity | lra] |]).
  constructor.
Qed.

(** ** Engulfment *)

(** C4, as the specification states it, fails at the lower end of the
    window: it is not true that a planet that is not inert, in a frame
    without explosion, becomes inert exactly when the check of the
    specification succeeds. At mass 1 and age 10.5, the lifespan, with a
    star of scale 100, Mercury at angle 0 is 3.5 away from the centre and
    the specification's check succeeds, yet the frame leaves the planet
    alive. *)
Lemma engulfment_skips_age_equal_lifespan :
  ~ (forall data starScale starMass starAge delta st,
       App.isDead st = false ->
       App.isDead (fst (App.SinglePlanet_frame data starScale false starMass
                          starAge delta st))
       = Spec.engulfed 0.95 starScale
           (App.distFromCenter (App.frame_target data starMass starAge st))
           (App.lifespan (App.getSystemPhysics starMass starAge))
           (App.redGiantEnd (App.getSystemPhysics starMass starAge))
           starAge).
Proof.
intros H.
specialize (H (App.circular "MERCURY" 3.5 0.15 2.0 false false)
              (Fin 100) (Fin 1) (Fin 10.5) (Fin 0)
              (App.SinglePlanet_mount (Fin 0)) eq_refl).
assert (H1 : 0 < 1) by lra.
pose proof (spec_massMultiplier_bounds 1 10.5) as Hk.
pose proof (agingExpansion_bounds 1 _ H1 Hk) as Hx.
rewrite SinglePlanet_frame_isDead in H by reflexivity.
rewrite (frame_target_circular _ _ 1 10.5 3.5 0) in H
  by (reflexivity || lra).
rewrite getSystemPhysics_lifespan, getSystemPhysics_redGiantEnd in H by lra.
rewrite Spec_lifespan_1, Spec_redGiantEnd_1, Rpower_1_l in H.
rewrite distFromCenter_circular in H by nra.
unfold App.planet_engulfed, Spec.engulfed, Spec.engulfment_window, Num.gt in H.
rewrite mul_Fin in H. cbn [Num.lt Num.le negb andb] in H.
revert H. cmp_cases; try lra; try nra; discriminate.
Qed.

(** C4, amended. For a finite mass [m > 0], every age, star scale and
    frame time: a planet that is not inert becomes inert in a frame exactly
    when the explosion is not active, [lifespan < age < redGiantEnd] with
    both bounds strict, and [starScale > distanceFromCenter * 0.95], where
    [distanceFromCenter] is the distance of the planet's target position
    from the centre in the orbital plane; an inner-belt particle has no
    inert flag and is drawn at scale 0 exactly in the frames where the
    explosion is active or [lifespan < age < redGiantEnd] and
    [starScale > currentDist * 0.9]; a Kuiper-belt particle is not subject
    to the check. At age exactly equal to lifespan the check is not active:
    no planet becomes inert and, without explosion, every inner-belt
    particle keeps its size. For a planet on a circular orbit the distance
    from the centre is the current radius of the orbit,
    [baseDist * mass^0.5 * (mass / currentMass)]. *)
Theorem engulfment_policy
  (m : R) (age starScale delta : number) (exploded : bool) :
  0 < m ->
  let l := Fin (Spec.lifespan m) in
  let e := Fin (Spec.redGiantEnd m) in
  let window := ((age >? l) && (age <? e))%js in
  (forall data st,
     App.isDead st = false ->
     App.isDead (fst (App.SinglePlanet_frame data starScale exploded (Fin m)
                        age delta st))
     = negb exploded && window
       && (starScale
           >? App.distFromCenter (App.frame_target data (Fin m) age st)
              * 0.95)%js)
  /\ (forall p,
     App.i_scale (snd (App.AsteroidBelt_particle (Fin m) age exploded
                         starScale delta p))
     = if exploded
          || (window
              && (starScale >? App.particle_currentDist (Fin m) age p * 0.9)%js)
       then Fin 0 else App.p_size p)
  /\ (forall p,
     App.i_scale (snd (App.KuiperBelt_particle (Fin m) age exploded
                         starScale delta p))
     = if exploded then Fin 0 else App.p_size p)
  /\ (forall data st,
     App.isDead st = false ->
     App.isDead (fst (App.SinglePlanet_frame data starScale exploded (Fin m)
                        l delta st)) = false)
  /\ (forall p,
     App.i_scale (snd (App.AsteroidBelt_particle (Fin m) l false
                         starScale delta p)) = App.p_size p)
  /\ (forall data st (a d theta : R),
     age = Fin a -> App.isEccentric data = false ->
     App.baseDist data = Fin d -> 0 <= d -> App.angle st = Fin theta ->
     App.distFromCenter (App.frame_target data (Fin m) age st)
     = Fin (d * Rpower m 0.5 * (m / (m * Spec.massMultiplier m a)))).
Proof.
intros Hm l e window. subst l e window.
pose proof (spec_redGiantEnd_gt m) as He.
split; [| split; [| split; [| split; [| split]]]].
- intros data st Hd. rewrite SinglePlanet_frame_isDead by exact Hd.
  rewrite getSystemPhysics_lifespan, getSystemPhysics_redGiantEnd
    by exact Hm.
  unfold App.planet_engulfed.
  destruct exploded; cbn [negb andb]; [reflexivity |].
  destruct ((age >? Fin (Spec.lifespan m)) && (age <? Fin (Spec.redGiantEnd m)))%js;
    cbn [andb]; [| reflexivity].
  match goal with |- (if ?b then _ else _) = _ => destruct b end; reflexivity.
- intros p. now apply AsteroidBelt_particle_scale.
- intros p. reflexivity.
- intros data st Hd. rewrite SinglePlanet_frame_isDead by exact Hd.
  rewrite getSystemPhysics_lifespan by exact Hm.
  unfold App.planet_engulfed, Num.gt. cbn [Num.lt].
  cmp_cases; try lra. cbn [andb]. now rewrite andb_false_r.
- intros p. unfold App.AsteroidBelt_particle. cbn [snd App.i_scale].
  rewrite getSystemPhysics_lifespan by exact Hm.
  unfold Num.gt. cbn [Num.lt].
  cmp_cases; try lra. reflexivity.
- intros data st a d theta Ea Hc Hb Hd Ht. subst age.
  rewrite (frame_target_circular data st m a d theta) by assumption.
  apply distFromCenter_circular.
  pose proof (agingExpansion_bounds m _ Hm (spec_massMultiplier_bounds m a)).
  pose proof (Rpower_pos m 0.5).
  apply Rmult_le_pos; [apply Rmult_le_pos |]; lra.
Qed.

(** C4, amended, at mass 1 with a star of scale 100: at age 10.5, the
    lifespan, a frame leaves a freshly mounted Mercury alive. *)
Lemma engulfment_policy_witness :
  0 < 1
  /\ App.isDead (App.SinglePlanet_mount (Fin 0)) = false
  /\ App.isDead
       (fst (App.SinglePlanet_frame
               (App.circular "MERCURY" 3.5 0.15 2.0 false false)
               (Fin 100) false (Fin 1) (Fin (Spec.lifespan 1)) (Fin 0)
               (App.SinglePlanet_mount (Fin 0)))) = false.
Proof.
assert (H : 0 < 1) by lra.
split; [exact H |]. split; [reflexivity |].
apply (engulfment_policy 1 (Fin 11) (Fin 100) (Fin 0) false H).
reflexivity.
Defined.

(** ** Inertness over time *)




(** ** The explosion and its revert timers *)

(** Case analysis on whether a deadline is due. *)
Ltac due_cases :=
  unfold App.due;
  repeat (cbn [negb orb List.app filter existsb];
          match goal with
          | |- context [(?a <=? ?b)%Z] => destruct (Z.leb_spec a b); try lia
          end);
  cbn [negb orb List.app filter existsb].

(** C6, as the specification states it, fails: it is not true that a
    trigger in the Exploding state leaves the pending revert timers as
    they are. After a trigger at time 0 and a second one 500 ms later two
    timers are pending, with deadlines 2000 and 2500. *)
Lemma retrigger_schedules_second_timer :
  ~ (forall w,
       App.isExploding w = true ->
       App.timeouts (App.triggerDeath w) = App.timeouts w).
Proof.
intros H.
specialize (H (App.World_run App.World_initial
                 [App.TriggerDeath; App.Elapse 500])).
cbv in H. specialize (H eq_refl). discriminate H.
Qed.

(** C6, amended. Each trigger sets the flag and schedules a revert timer
    of its own, 2000 ms ahead. After two triggers [gap < 2000] ms apart,
    from a state with no pending timer, the system is Exploding, the first
    trigger's deadline is unchanged and a second timer is pending with the
    deadline of the second trigger; the system stays Exploding until
    2000 ms after the first trigger and is Normal from exactly then on.
    The second timer stays pending after that, and reverts an explosion
    triggered in between before its 2000 ms are over. *)
Theorem retrigger_keeps_first_deadline (w0 : App.World) (gap d : Z) :
  App.timeouts w0 = [] -> (0 <= gap < 2000)%Z -> (0 <= d)%Z ->
  let t0 := App.clock w0 in
  let w2 :=
    App.World_run w0 [App.TriggerDeath; App.Elapse gap; App.TriggerDeath] in
  App.isExploding w2 = true
  /\ App.clock w2 = (t0 + gap)%Z
  /\ App.timeouts w2 = [(t0 + 2000)%Z; (t0 + gap + 2000)%Z]
  /\ ((gap + d < 2000)%Z -> App.isExploding (App.elapse d w2) = true)
  /\ ((2000 <= gap + d)%Z -> App.isExploding (App.elapse d w2) = false)
  /\ ((2000 <= gap + d < gap + 2000)%Z ->
      App.timeouts (App.elapse d w2) = [(t0 + gap + 2000)%Z]
      /\ App.isExploding
           (App.World_run (App.elapse d w2)
              [App.TriggerDeath; App.Elapse (2000 - d)]) = false).
Proof.
intros Hw Hgap Hd t0 w2. subst t0 w2.
unfold App.World_run, App.isExploding. cbn [fold_left App.World_step].
unfold App.triggerDeath, App.elapse.
cbn [App.app App.clock App.timeouts]. rewrite Hw.
cbn [List.app filter existsb].
split; [| split; [| split; [| split; [| split]]]].
- reflexivity.
- reflexivity.
- due_cases; reflexivity.
- intros H. due_cases; reflexivity.
- intros H. due_cases; reflexivity.
- intros H. due_cases; split; reflexivity.
Qed.

(** C6, amended, for the initial state and two triggers 500 ms apart:
    1500 ms after the second trigger the system is Normal. *)
Lemma retrigger_keeps_first_deadline_witness :
  App.timeouts App.World_initial = []
  /\ (0 <= 500 < 2000)%Z /\ (0 <= 1500)%Z
  /\ App.isExploding
       (App.elapse 1500
          (App.World_run App.World_initial
             [App.TriggerDeath; App.Elapse 500; App.TriggerDeath])) = false.
Proof.
assert (Hw : App.timeouts App.World_initial = []) by reflexivity.
assert (Hg : (0 <= 500 < 2000)%Z) by lia.
assert (Hd : (0 <= 1500)%Z) by lia.
split; [exact Hw |]. split; [exact Hg |]. split; [exact Hd |].
apply (retrigger_keeps_first_deadline App.World_initial 500 1500 Hw Hg Hd).
lia.
Defined.

(** ** Inputs out of range *)

Lemma Rpower_half_lt (y : R) : 1 < y -> Rpower 0.5 y < 0.5.
Proof.
intros Hy.
assert (L : ln 0.5 < 0) by (rewrite <- ln_1; apply ln_increasing; lra).
rewrite <- (Rpower_1 0.5) at 2 by lra.
unfold Rpower. apply exp_increasing. nra.
Qed.

Lemma spec_lifespan_half : 20 < Spec.lifespan 0.5.
Proof.
unfold Spec.lifespan.
pose proof (Rpower_half_lt 2.5 ltac:(lra)) as Hp.
pose proof (Rpower_pos 0.5 2.5) as H0.
assert (20 < 10 / Rpower 0.5 2.5); [| lra].
apply (Rmult_lt_reg_r (Rpower 0.5 2.5)); [exact H0 |].
unfold Rdiv. rewrite Rmult_assoc, Rinv_l by lra. lra.
Qed.

Lemma not_integer_2_5 : Math.is_integer 2.5 = false.
Proof.
unfold Math.is_integer. apply is_zero_neq. intros H.
unfold frac_part in H.
assert (E : IZR (2 * Int_part 2.5) = IZR 5) by (rewrite mult_IZR; lra).
apply eq_IZR in E. lia.
Qed.

(** With a NaN age [useStarPhysics] takes its final branch. *)
Lemma useStarPhysics_NaN_age (mass : number) :
  App.useStarPhysics mass NaN
  = {| App.stage := if (mass >? 8)%js then App.Supernova else App.WhiteDwarf;
       App.color := "#ffffff";
       App.scale := if (mass >? 8)%js then (App.star_baseSize mass * 0.5)%js
                    else (App.star_baseSize mass * 0.2)%js;
       App.description := if (mass >? 8)%js then App.CoreCollapseImminent
                          else App.OuterLayersShed |}.
Proof.
unfold App.useStarPhysics, Num.ge.
now rewrite lt_NaN_l, le_NaN_r.
Qed.

(** C9, as the specification states it, fails: [useStarPhysics] does not
    compute with clamped inputs. At mass 0.5 and a NaN age it returns the
    stage White Dwarf, which it returns for no age in [0, 15] at that mass:
    the lifespan there is above 20. *)
Lemma useStarPhysics_does_not_clamp :
  ~ Spec.clamps_inputs (fun mass age => App.stage (App.useStarPhysics mass age)).
Proof.
intros H. destruct (H (Fin 0.5) NaN) as [m' [a' [[_ Hm] [[[a [Ea Ha]] _] E]]]].
rewrite Hm in E by (exists 0.5; split; [reflexivity | lra]).
subst a'. rewrite useStarPhysics_NaN_age in E. cbn [App.stage] in E.
pose proof spec_lifespan_half as Hl.
unfold App.useStarPhysics, App.star_redGiantStart in E.
rewrite star_lifespan_Fin in E by lra.
unfold Num.gt in E. cbn [Num.lt] in E.
revert E. cmp_cases; try lra; discriminate.
Qed.

(** C9, amended. The physics functions neither clamp nor reject their
    inputs. For a NaN age every comparison is false: [useStarPhysics]
    returns its final branch, Supernova when [mass > 8] and White Dwarf
    otherwise, and [getSystemPhysics] multiplies the mass by 1.0. For
    mass 0 the lifespan is +Infinity and every finite age gives Main
    Sequence. For a finite mass below 0 the lifespan is NaN and every age
    gives White Dwarf. *)
Theorem out_of_range_inputs :
  (forall mass,
     App.stage (App.useStarPhysics mass NaN)
     = if (mass >? 8)%js then App.Supernova else App.WhiteDwarf)
  /\ (forall mass,
     App.currentMass (App.getSystemPhysics mass NaN) = (mass * 1.0)%js)
  /\ App.star_lifespan (Fin 0) = PosInf
  /\ (forall a : R,
     App.stage (App.useStarPhysics (Fin 0) (Fin a)) = App.MainSequence)
  /\ (forall m : R, m < 0 -> App.star_lifespan (Fin m) = NaN)
  /\ (forall (m : R) (age : number),
     m < 0 ->
     App.stage (App.useStarPhysics (Fin m) age) = App.WhiteDwarf).
Proof.
assert (L0 : App.star_lifespan (Fin 0) = PosInf).
{ unfold App.star_lifespan, Math.pow.
  rewrite (is_zero_neq 2.5) by lra.
  replace (Num.is_zero 0) with true by (symmetry; now apply is_zero_true).
  rewrite nonneg_true by lra. cbn [Num.div].
  replace (Num.is_zero 0) with true by (symmetry; now apply is_zero_true).
  rewrite is_zero_neq, nonneg_true by lra. reflexivity. }
assert (Ln : forall m : R, m < 0 -> App.star_lifespan (Fin m) = NaN).
{ intros m Hm. unfold App.star_lifespan, Math.pow.
  rewrite (is_zero_neq 2.5), (is_zero_neq m), nonneg_false by lra.
  rewrite not_integer_2_5. reflexivity. }
split; [| split; [| split; [| split; [| split]]]].
- intros mass. now rewrite useStarPhysics_NaN_age.
- intros mass. unfold App.getSystemPhysics. cbn [App.currentMass].
  unfold App.massMultiplier, Num.gt, Num.ge.
  now rewrite lt_NaN_r, lt_NaN_l, le_NaN_r.
- exact L0.
- intros a. unfold App.useStarPhysics, App.star_redGiantStart.
  rewrite L0. reflexivity.
- exact Ln.
- intros m age Hm. unfold App.useStarPhysics, App.star_redGiantStart,
    App.star_deathStart.
  rewrite Ln by exact Hm. unfold Num.gt, Num.ge. cbn [Num.mul].
  rewrite lt_NaN_r, le_NaN_l. cbn [andb Num.lt].
  cmp_cases; try lra; reflexivity.
Qed.

(** C9, amended, at mass -1 and age 0. *)
Lemma out_of_range_inputs_witness :
  -1 < 0
  /\ App.stage (App.useStarPhysics (Fin (-1)) (Fin 0)) = App.WhiteDwarf.
Proof.
assert (H : -1 < 0) by lra.
split; [exact H |].
apply (proj2 (proj2 (proj2 (proj2 (proj2 out_of_range_inputs))))).
exact H.
Defined.

(** ** The example scenarios of the specification *)

(** Mass 1 at age 0: Main Sequence in the middle colour tier, with a
    lifespan of 10.5. *)
Example scenario_main_sequence :
  App.stage (App.useStarPhysics (Fin 1) (Fin 0)) = App.MainSequence
  /\ App.color (App.useStarPhysics (Fin 1) (Fin 0)) = "#ffaa00"%string
  /\ App.star_lifespan (Fin 1) = Fin 10.5.
Proof.
assert (L : App.star_lifespan (Fin 1) = Fin 10.5).
{ rewrite star_lifespan_Fin by lra. now rewrite Spec_lifespan_1. }
unfold App.useStarPhysics, App.star_redGiantStart. rewrite L.
unfold Num.gt. cbn [Num.lt].
cmp_cases; try lra. repeat split; reflexivity.
Qed.

(** Mass 1 at age 10.5, the lifespan: Red Giant, not yet grown. *)
Example scenario_red_giant_start :
  App.stage (App.useStarPhysics (Fin 1) (Fin 10.5)) = App.RedGiant
  /\ App.scale (App.useStarPhysics (Fin 1) (Fin 10.5))
     = Fin (Spec.baseSize 1).
Proof.
unfold App.useStarPhysics, App.star_redGiantStart.
rewrite star_lifespan_Fin, star_deathStart_Fin, star_baseSize_Fin by lra.
rewrite Spec_lifespan_1, Spec_redGiantEnd_1.
unfold Num.ge. cbn [Num.lt Num.le].
cmp_cases; try lra. cbn [andb App.stage App.scale].
split; [reflexivity |]. fin_arith. f_equal. lra.
Qed.

(** Mass 10 at age 15: Supernova at half the base size. *)
Example scenario_supernova :
  App.stage (App.useStarPhysics (Fin 10) (Fin 15)) = App.Supernova
  /\ App.scale (App.useStarPhysics (Fin 10) (Fin 15))
     = Fin (Spec.baseSize 10 * 0.5).
Proof.
assert (P : 1 < Rpower 10 2.5).
{ rewrite <- (Rpower_O 10) by lra. apply Rpower_lt; lra. }
assert (L : Spec.lifespan 10 < 10.5).
{ unfold Spec.lifespan. assert (10 / Rpower 10 2.5 < 10); [| lra].
  apply (Rmult_lt_reg_r (Rpower 10 2.5)); [lra |].
  unfold Rdiv. rewrite Rmult_assoc, Rinv_l by lra. lra. }
pose proof (spec_lifespan_gt 10) as L0.
unfold App.useStarPhysics, App.star_redGiantStart.
rewrite star_lifespan_Fin, star_deathStart_Fin, star_baseSize_Fin by lra.
unfold Spec.redGiantEnd, Num.ge, Num.gt. cbn [Num.lt Num.le].
cmp_cases; try lra; cbn [andb App.stage App.scale];
  split; reflexivity.
Qed.

(** A trigger in the initial state: Exploding at once, Normal again once
    2000 ms have passed. *)
Example scenario_explosion_reverts :
  App.isExploding (App.triggerDeath App.World_initial) = true
  /\ App.isExploding (App.elapse 1999 (App.triggerDeath App.World_initial))
     = true
  /\ App.isExploding (App.elapse 2000 (App.triggerDeath App.World_initial))
     = false.
Proof.
repeat split; reflexivity.
Qed.

(** The stand-alone hook on mass 1: a Proto-Star at age 0, and a lifespan
    of 10. *)
Example scenario_hook :
  Hook.lifespan (Fin 1) = Fin 10
  /\ Hook.stage (Hook.useStarPhysics (Fin 1) (Fin 0)) = "Proto-Star"%string.
Proof.
assert (L : Hook.lifespan (Fin 1) = Fin 10).
{ unfold Hook.lifespan. rewrite mul_Fin, div_Fin by lra. f_equal. lra. }
split; [exact L |].
unfold Hook.useStarPhysics. rewrite L, div_Fin by lra.
cbn [Num.lt]. cmp_cases; try lra; reflexivity.
Qed.

(** * Further properties of the model *)

(** ** The star's stage and scale over its life *)

Lemma baseSize_pos (m : R) : 0 < m -> 0 < Spec.baseSize m.
Proof.
intros Hm. unfold Spec.baseSize.
assert (0 < ln (m + 1)) by (rewrite <- ln_1; apply ln_increasing; lra).
lra.
Qed.

Lemma useStarPhysics_main (m a : R) :
  0 < m -> a < Spec.lifespan m ->
  App.stage (App.useStarPhysics (Fin m) (Fin a)) = App.MainSequence
  /\ App.scale (App.useStarPhysics (Fin m) (Fin a)) = Fin (Spec.baseSize m).
Proof.
intros Hm Ha. unfold App.useStarPhysics, App.star_redGiantStart.
rewrite star_lifespan_Fin, star_baseSize_Fin by exact Hm.
cbn [Num.lt]. cmp_cases; try lra. split; reflexivity.
Qed.

Lemma useStarPhysics_giant (m a : R) :
  0 < m -> Spec.lifespan m <= a -> a < Spec.redGiantEnd m ->
  App.stage (App.useStarPhysics (Fin m) (Fin a)) = App.RedGiant
  /\ App.scale (App.useStarPhysics (Fin m) (Fin a))
     = Fin (Spec.baseSize m * (1 + Spec.phaseProgress m a * 5)).
Proof.
intros Hm H1 H2. unfold App.useStarPhysics, App.star_redGiantStart.
rewrite star_lifespan_Fin, star_deathStart_Fin, star_baseSize_Fin
  by exact Hm.
unfold Num.ge. cbn [Num.lt Num.le]. cmp_cases; try lra.
cbn [andb App.stage App.scale]. split; [reflexivity |].
fin_arith. reflexivity.
Qed.

Lemma useStarPhysics_remnant (m a : R) :
  0 < m -> Spec.redGiantEnd m <= a ->
  App.stage (App.useStarPhysics (Fin m) (Fin a))
  = (if Rlt_dec 8 m then App.Supernova else App.WhiteDwarf)
  /\ App.scale (App.useStarPhysics (Fin m) (Fin a))
     = Fin (Spec.baseSize m * (if Rlt_dec 8 m then 0.5 else 0.2)).
Proof.
intros Hm Ha. pose proof (spec_redGiantEnd_gt m) as He.
unfold App.useStarPhysics, App.star_redGiantStart.
rewrite star_lifespan_Fin, star_deathStart_Fin, star_baseSize_Fin
  by exact Hm.
unfold Num.ge, Num.gt. cbn [Num.lt Num.le].
cmp_cases; try lra; cbn [andb App.stage App.scale]; split; reflexivity.
Qed.

(** X1. Inside the red-giant phase the scale of the star starts at the base
    size, grows strictly with the age and stays below six times the base
    size, which is positive. *)
Theorem red_giant_scale_grows (m a a' : R) :
  0 < m -> Spec.lifespan m <= a -> a < a' -> a' < Spec.redGiantEnd m ->
  exists s s' : R,
    App.scale (App.useStarPhysics (Fin m) (Fin a)) = Fin s
    /\ App.scale (App.useStarPhysics (Fin m) (Fin a')) = Fin s'
    /\ App.scale (App.useStarPhysics (Fin m) (Fin (Spec.lifespan m)))
       = Fin (Spec.baseSize m)
    /\ 0 < Spec.baseSize m <= s /\ s < s' < 6 * Spec.baseSize m.
Proof.
intros Hm H1 H2 H3.
pose proof (baseSize_pos m Hm) as HB.
pose proof (spec_redGiantEnd_gt m) as He.
destruct (useStarPhysics_giant m a Hm) as [_ Ea]; try lra.
destruct (useStarPhysics_giant m a' Hm) as [_ Ea']; try lra.
destruct (useStarPhysics_giant m (Spec.lifespan m) Hm) as [_ El]; try lra.
exists (Spec.baseSize m * (1 + Spec.phaseProgress m a * 5)),
       (Spec.baseSize m * (1 + Spec.phaseProgress m a' * 5)).
split; [exact Ea |]. split; [exact Ea' |]. split.
{ rewrite El. f_equal. unfold Spec.phaseProgress.
  replace (Spec.lifespan m - Spec.lifespan m) with 0 by ring.
  unfold Rdiv. rewrite Rmult_0_l. ring. }
assert (P0 : 0 <= Spec.phaseProgress m a).
{ unfold Spec.phaseProgress. apply Rmult_le_pos; [lra |].
  left. apply Rinv_0_lt_compat. lra. }
assert (P1 : Spec.phaseProgress m a < Spec.phaseProgress m a').
{ unfold Spec.phaseProgress, Rdiv. apply Rmult_lt_compat_r; [| lra].
  apply Rinv_0_lt_compat. lra. }
assert (P2 : Spec.phaseProgress m a' < 1).
{ unfold Spec.phaseProgress. apply div_lt_1; lra. }
split; [split; [lra | nra] | split; nra].
Qed.

(** X1 at mass 1, between the ages 11 and 12. *)
Lemma red_giant_scale_grows_witness :
  exists s s' : R,
    App.scale (App.useStarPhysics (Fin 1) (Fin 11)) = Fin s
    /\ App.scale (App.useStarPhysics (Fin 1) (Fin 12)) = Fin s'
    /\ s < s'.
Proof.
assert (H0 : 0 < 1) by lra.
assert (H1 : Spec.lifespan 1 <= 11) by (rewrite Spec_lifespan_1; lra).
assert (H2 : 11 < 12) by lra.
assert (H3 : 12 < Spec.redGiantEnd 1) by (rewrite Spec_redGiantEnd_1; lra).
destruct (red_giant_scale_grows 1 11 12 H0 H1 H2 H3)
  as [s [s' [E [E' [_ [_ [L _]]]]]]].
exists s, s'. split; [exact E |]. split; [exact E' | exact L].
Defined.

(** X2. The life of a star never runs backwards: for a fixed mass, a later
    age never gives an earlier stage. *)
Theorem stage_never_goes_back (m a a' : R) :
  0 < m -> a <= a' ->
  (Props.stage_rank (App.stage (App.useStarPhysics (Fin m) (Fin a)))
   <= Props.stage_rank (App.stage (App.useStarPhysics (Fin m) (Fin a'))))%nat.
Proof.
intros Hm Ha. pose proof (spec_redGiantEnd_gt m) as He.
destruct (Rlt_dec a (Spec.lifespan m)) as [A1 | A1].
- destruct (useStarPhysics_main m a Hm A1) as [-> _]. apply Nat.le_0_l.
- destruct (Rlt_dec a (Spec.redGiantEnd m)) as [A2 | A2].
  + destruct (useStarPhysics_giant m a Hm) as [-> _]; try lra.
    destruct (Rlt_dec a' (Spec.redGiantEnd m)) as [B2 | B2].
    * destruct (useStarPhysics_giant m a' Hm) as [-> _]; try lra.
      apply Nat.le_refl.
    * destruct (useStarPhysics_remnant m a' Hm) as [-> _]; try lra.
      destruct (Rlt_dec 8 m); cbn; lia.
  + destruct (useStarPhysics_remnant m a Hm) as [-> _]; try lra.
    destruct (useStarPhysics_remnant m a' Hm) as [-> _]; try lra.
    destruct (Rlt_dec 8 m); apply Nat.le_refl.
Qed.

(** X2 at mass 1, from age 5 to age 11. *)
Lemma stage_never_goes_back_witness :
  (Props.stage_rank (App.stage (App.useStarPhysics (Fin 1) (Fin 5)))
   <= Props.stage_rank (App.stage (App.useStarPhysics (Fin 1) (Fin 11))))%nat.
Proof.
apply (stage_never_goes_back 1 5 11); lra.
Defined.

(** ** The mass of the star and the size of the orbits *)

Lemma phaseProgress_mono (m a a' : R) :
  a <= a' -> Spec.phaseProgress m a <= Spec.phaseProgress m a'.
Proof.
intros Ha. pose proof (spec_redGiantEnd_gt m) as He.
unfold Spec.phaseProgress, Rdiv. apply Rmult_le_compat_r; [| lra].
left. apply Rinv_0_lt_compat. lra.
Qed.

Lemma spec_massMultiplier_mono (m a a' : R) :
  a <= a' -> Spec.massMultiplier m a' <= Spec.massMultiplier m a.
Proof.
intros Ha. pose proof (spec_redGiantEnd_gt m) as He.
pose proof (phaseProgress_mono m a a' Ha) as Hp.
unfold Spec.massMultiplier. cmp_cases; try lra.
- assert (0 < Spec.phaseProgress m a' < 1)
    by (apply phaseProgress_bounds; lra). lra.
- assert (0 < Spec.phaseProgress m a < 1)
    by (apply phaseProgress_bounds; lra). lra.
Qed.

(** X3. The star never regains mass: for a fixed initial mass, the current
    mass at a later age is at most the current mass at an earlier age, and
    never more than the initial mass. *)
Theorem currentMass_never_grows (m a a' : R) :
  0 < m -> a <= a' ->
  exists c c' : R,
    App.currentMass (App.getSystemPhysics (Fin m) (Fin a)) = Fin c
    /\ App.currentMass (App.getSystemPhysics (Fin m) (Fin a')) = Fin c'
    /\ c' <= c <= m.
Proof.
intros Hm Ha.
exists (m * Spec.massMultiplier m a), (m * Spec.massMultiplier m a').
split; [now apply currentMass_Fin |]. split; [now apply currentMass_Fin |].
pose proof (spec_massMultiplier_mono m a a' Ha).
pose proof (spec_massMultiplier_bounds m a). nra.
Qed.

(** X3 at mass 1, from age 11 to age 12. *)
Lemma currentMass_never_grows_witness :
  exists c c' : R,
    App.currentMass (App.getSystemPhysics (Fin 1) (Fin 11)) = Fin c
    /\ App.currentMass (App.getSystemPhysics (Fin 1) (Fin 12)) = Fin c'
    /\ c' <= c <= 1.
Proof.
apply (currentMass_never_grows 1 11 12); lra.
Defined.

Lemma Rpower_half (m : R) : 0 < m -> Rpower m 0.5 = sqrt m.
Proof.
intros Hm. replace 0.5 with (/ 2) by lra. now apply Rpower_sqrt.
Qed.

Lemma sqrt_multiplier_bounds (k : R) : 0.4 <= k <= 1 -> 0.6 <= sqrt k <= 1.
Proof.
intros Hk. split.
- rewrite <- (sqrt_square 0.6) by lra. apply sqrt_le_1_alt. lra.
- rewrite <- sqrt_1. apply sqrt_le_1_alt. lra.
Qed.

Lemma agingExpansion_mono (m k k' : R) :
  0 < m -> 0.4 <= k' -> k' <= k -> m / (m * k) <= m / (m * k').
Proof.
intros Hm Hk' Hk.
replace (m / (m * k)) with (/ k) by (field; lra).
replace (m / (m * k')) with (/ k') by (field; lra).
apply Rinv_le_contravar; lra.
Qed.

(** The radius of a circular orbit. *)
Lemma circular_radius (data : App.PlanetData) (st : App.PlanetState)
  (m a d theta : R) :
  0 < m -> App.isEccentric data = false -> App.baseDist data = Fin d ->
  0 <= d -> App.angle st = Fin theta ->
  App.distFromCenter (App.frame_target data (Fin m) (Fin a) st)
  = Fin (d * Rpower m 0.5 * (m / (m * Spec.massMultiplier m a))).
Proof.
intros Hm Hc Hb Hd Ht.
rewrite (frame_target_circular data st m a d theta) by assumption.
apply distFromCenter_circular.
pose proof (agingExpansion_bounds m _ Hm (spec_massMultiplier_bounds m a)).
pose proof (Rpower_pos m 0.5).
apply Rmult_le_pos; [apply Rmult_le_pos |]; lra.
Qed.

(** X4. The orbit of a planet on a circle never shrinks: its radius at a
    later age is at least its radius at an earlier age, it is never below
    [baseDist * sqrt mass], the radius before the red-giant phase, and
    never above two and a half times that. *)
Theorem orbit_radius_widens (data : App.PlanetData) (st : App.PlanetState)
  (m a a' d theta : R) :
  0 < m -> App.isEccentric data = false -> App.baseDist data = Fin d ->
  0 <= d -> App.angle st = Fin theta -> a <= a' ->
  exists r r' : R,
    App.distFromCenter (App.frame_target data (Fin m) (Fin a) st) = Fin r
    /\ App.distFromCenter (App.frame_target data (Fin m) (Fin a') st) = Fin r'
    /\ d * sqrt m <= r /\ r <= r' /\ r' <= 2.5 * (d * sqrt m)
    /\ (a <= Spec.lifespan m -> r = d * sqrt m).
Proof.
intros Hm Hc Hb Hd Ht Ha.
pose proof (spec_massMultiplier_bounds m a) as Hk.
pose proof (spec_massMultiplier_bounds m a') as Hk'.
pose proof (agingExpansion_bounds m _ Hm Hk) as Hx.
pose proof (agingExpansion_bounds m _ Hm Hk') as Hx'.
pose proof (agingExpansion_mono m _ _ Hm (proj1 Hk')
              (spec_massMultiplier_mono m a a' Ha)) as Hmono.
assert (Hs : 0 <= d * sqrt m)
  by (apply Rmult_le_pos; [lra | apply sqrt_pos]).
exists (d * Rpower m 0.5 * (m / (m * Spec.massMultiplier m a))),
       (d * Rpower m 0.5 * (m / (m * Spec.massMultiplier m a'))).
split; [now apply (circular_radius data st m a d theta) |].
split; [now apply (circular_radius data st m a' d theta) |].
rewrite Rpower_half by exact Hm.
split; [nra |]. split; [nra |]. split; [nra |].
intros Hl. unfold Spec.massMultiplier.
destruct (Rle_dec a (Spec.lifespan m)); [| lra].
replace (m / (m * 1)) with 1 by (field; lra). ring.
Qed.

(** X4 for the Earth at mass 1, from age 11 to age 12. *)
Lemma orbit_radius_widens_witness :
  exists r r' : R,
    App.distFromCenter
      (App.frame_target (App.circular "EARTH" 7.0 0.3 1.0 true false)
         (Fin 1) (Fin 11) (App.SinglePlanet_mount (Fin 0))) = Fin r
    /\ App.distFromCenter
         (App.frame_target (App.circular "EARTH" 7.0 0.3 1.0 true false)
            (Fin 1) (Fin 12) (App.SinglePlanet_mount (Fin 0))) = Fin r'
    /\ r <= r'.
Proof.
destruct (orbit_radius_widens
            (App.circular "EARTH" 7.0 0.3 1.0 true false)
            (App.SinglePlanet_mount (Fin 0)) 1 11 12 7.0 0)
  as [r [r' [E [E' [_ [L _]]]]]];
  try reflexivity; try lra.
exists r, r'. split; [exact E |]. split; [exact E' | exact L].
Defined.

Lemma currentSpeed_Fin (m a v : R) :
  0 < m ->
  App.currentSpeed (Fin v) (Fin m)
    (App.currentMass (App.getSystemPhysics (Fin m) (Fin a)))
  = Fin (v * sqrt (Spec.massMultiplier m a)).
Proof.
intros Hm. pose proof (spec_massMultiplier_bounds m a) as Hk.
unfold App.currentSpeed, App.initialSystemScale.
rewrite currentMass_Fin, pow_Fin, sqrt_Fin by (lra || nra).
pose proof (Rpower_pos m 0.5) as Hp.
rewrite mul_Fin, div_Fin by lra. f_equal.
rewrite Rpower_half by exact Hm.
rewrite sqrt_mult by lra.
assert (0 < sqrt m) by (apply sqrt_lt_R0; exact Hm).
field. lra.
Qed.

(** X5. The speed at which a body moves along its orbit is its catalogue
    speed times the square root of the mass multiplier that
    [getSystemPhysics] applies at that mass and age: it is the catalogue
    speed up to the end of the lifespan, and afterwards never more than
    the catalogue speed and never less than six tenths of it. *)
Theorem orbital_speed (m a v : R) :
  0 < m -> 0 <= v ->
  exists s : R,
    App.currentSpeed (Fin v) (Fin m)
      (App.currentMass (App.getSystemPhysics (Fin m) (Fin a))) = Fin s
    /\ s = v * sqrt (Spec.massMultiplier m a)
    /\ 0.6 * v <= s <= v
    /\ (a <= Spec.lifespan m -> s = v).
Proof.
intros Hm Hv.
pose proof (sqrt_multiplier_bounds _ (spec_massMultiplier_bounds m a)) as Hs.
exists (v * sqrt (Spec.massMultiplier m a)).
split; [now apply currentSpeed_Fin |]. split; [reflexivity |].
split; [split; nra |].
intros Hl. unfold Spec.massMultiplier.
destruct (Rle_dec a (Spec.lifespan m)); [| lra].
rewrite sqrt_1. ring.
Qed.

(** X5 for the speed of Mercury at mass 4 and age 0. *)
Lemma orbital_speed_witness :
  exists s : R,
    App.currentSpeed (Fin 2) (Fin 4)
      (App.currentMass (App.getSystemPhysics (Fin 4) (Fin 0))) = Fin s
    /\ 0.6 * 2 <= s <= 2.
Proof.
destruct (orbital_speed 4 0 2) as [s [E [_ [B _]]]]; try lra.
exists s. split; [exact E | exact B].
Defined.

(** ** The frames of the orbiting bodies *)

Lemma belt_position_distance (theta D y : R) :
  0 <= D ->
  App.distFromCenter
    {| App.vx := Fin (cos theta * D); App.vy := Fin y;
       App.vz := Fin (sin theta * D) |} = Fin D.
Proof.
intros HD. rewrite <- (distFromCenter_circular D theta HD). reflexivity.
Qed.

Lemma belt_dist_nonneg (m a d : R) :
  0 < m -> 0 <= d ->
  0 <= d * (m / (m * Spec.massMultiplier m a) * Rpower m 0.5).
Proof.
intros Hm Hd.
pose proof (agingExpansion_bounds m _ Hm (spec_massMultiplier_bounds m a)).
pose proof (Rpower_pos m 0.5).
apply Rmult_le_pos; [lra | apply Rmult_le_pos; lra].
Qed.

(** X6. One frame of a belt particle, for finite values: the frame changes
    nothing of the particle but its angle, which advances by the current
    speed times the frame time times 0.2 in the inner belt and 0.1 in the
    Kuiper belt; the particle is drawn at the height of its vertical
    offset and, in the orbital plane, at its current distance from the
    centre, the same for both belts. *)
Theorem belt_particle_frame
  (m a theta d v y s delta : R) (exploded : bool) (starScale : number) :
  0 < m -> 0 <= d ->
  let p := {| App.p_angle := Fin theta; App.p_dist := Fin d;
              App.p_speed := Fin v; App.p_yOffset := Fin y;
              App.p_size := Fin s |} in
  let turn := v * sqrt (Spec.massMultiplier m a) * delta in
  let inner :=
    App.AsteroidBelt_particle (Fin m) (Fin a) exploded starScale (Fin delta) p in
  let outer :=
    App.KuiperBelt_particle (Fin m) (Fin a) exploded starScale (Fin delta) p in
  fst inner
  = {| App.p_angle := Fin (theta + turn * 0.2); App.p_dist := Fin d;
       App.p_speed := Fin v; App.p_yOffset := Fin y; App.p_size := Fin s |}
  /\ fst outer
     = {| App.p_angle := Fin (theta + turn * 0.1); App.p_dist := Fin d;
          App.p_speed := Fin v; App.p_yOffset := Fin y; App.p_size := Fin s |}
  /\ App.vy (App.i_position (snd inner)) = Fin y
  /\ App.vy (App.i_position (snd outer)) = Fin y
  /\ App.distFromCenter (App.i_position (snd inner))
     = App.particle_currentDist (Fin m) (Fin a) p
  /\ App.distFromCenter (App.i_position (snd outer))
     = App.particle_currentDist (Fin m) (Fin a) p.
Proof.
intros Hm Hd p turn inner outer. subst inner outer turn.
pose proof (belt_dist_nonneg m a d Hm Hd) as HD.
rewrite (particle_currentDist_Fin p m a d Hm eq_refl).
unfold App.AsteroidBelt_particle, App.KuiperBelt_particle.
cbn [fst snd App.i_position App.vy p App.p_angle App.p_dist App.p_speed
     App.p_yOffset App.p_size].
rewrite currentSpeed_Fin by exact Hm.
pose proof (spec_massMultiplier_bounds m a) as Hk.
unfold App.agingExpansion, App.initialSystemScale.
rewrite currentMass_Fin, pow_Fin by lra.
rewrite (div_Fin m) by nra. rewrite !mul_Fin, !add_Fin.
cbn [Math.cos Math.sin]. rewrite !mul_Fin.
repeat split; try reflexivity; now apply belt_position_distance.
Qed.

(** X6 for a particle at distance 11, at mass 1 and age 11. *)
Lemma belt_particle_frame_witness :
  App.p_dist
    (fst (App.AsteroidBelt_particle (Fin 1) (Fin 11) false (Fin 1) (Fin 0.016)
            {| App.p_angle := Fin 0; App.p_dist := Fin 11;
               App.p_speed := Fin 0.7; App.p_yOffset := Fin 0.2;
               App.p_size := Fin 0.1 |})) = Fin 11.
Proof.
assert (H0 : 0 < 1) by lra. assert (H1 : 0 <= 11) by lra.
pose proof (belt_particle_frame 1 11 0 11 0.7 0.2 0.1 0.016 false (Fin 1)
              H0 H1) as T.
cbv zeta in T. destruct T as [E _]. now rewrite E.
Defined.

Lemma gt_scaled_mono (starScale : number) (x y : R) :
  x <= y ->
  (starScale >? Fin y * 0.95)%js = true ->
  (starScale >? Fin x * 0.95)%js = true.
Proof.
intros Hxy. rewrite !mul_Fin. unfold Num.gt.
destruct starScale as [| | |s]; cbn [Num.lt]; try easy.
cmp_cases; try easy; lra.
Qed.

(** X7. The star reaches the planets from the inside out: of two planets
    on circles that are not inert, in the same frame, the one with the
    smaller base distance becomes inert whenever the one farther out
    does. *)
Theorem engulfment_ordered_by_distance
  (data1 data2 : App.PlanetData) (st1 st2 : App.PlanetState)
  (m a d1 d2 theta1 theta2 : R) (starScale delta : number) (exploded : bool) :
  0 < m ->
  App.isEccentric data1 = false -> App.isEccentric data2 = false ->
  App.baseDist data1 = Fin d1 -> App.baseDist data2 = Fin d2 ->
  0 <= d1 <= d2 ->
  App.angle st1 = Fin theta1 -> App.angle st2 = Fin theta2 ->
  App.isDead st1 = false -> App.isDead st2 = false ->
  App.isDead (fst (App.SinglePlanet_frame data2 starScale exploded (Fin m)
                     (Fin a) delta st2)) = true ->
  App.isDead (fst (App.SinglePlanet_frame data1 starScale exploded (Fin m)
                     (Fin a) delta st1)) = true.
Proof.
intros Hm Hc1 Hc2 Hb1 Hb2 Hd Ht1 Ht2 Ha1 Ha2.
rewrite !SinglePlanet_frame_isDead by assumption.
unfold App.planet_engulfed.
rewrite (circular_radius data1 st1 m a d1 theta1) by (assumption || lra).
rewrite (circular_radius data2 st2 m a d2 theta2) by (assumption || lra).
destruct exploded; cbn [negb andb]; [easy |].
match goal with |- context [if ?w then _ else _] => destruct w end;
  [| easy].
pose proof (agingExpansion_bounds m _ Hm (spec_massMultiplier_bounds m a)).
pose proof (Rpower_pos m 0.5).
match goal with
| |- (if ?b then _ else _) = true -> _ => destruct b eqn:E; [| easy]
end.
intros _.
assert (Hle : d1 * Rpower m 0.5 * (m / (m * Spec.massMultiplier m a))
              <= d2 * Rpower m 0.5 * (m / (m * Spec.massMultiplier m a))).
{ apply Rmult_le_compat_r; [lra |]. apply Rmult_le_compat_r; lra. }
rewrite (gt_scaled_mono starScale _ _ Hle E). reflexivity.
Qed.

(** A star large enough engulfs a planet inside the red-giant window. *)
Lemma large_star_engulfs (data : App.PlanetData) (st : App.PlanetState)
  (m a d theta S : R) (delta : number) :
  0 < m -> App.isEccentric data = false -> App.baseDist data = Fin d ->
  0 <= d -> App.angle st = Fin theta -> App.isDead st = false ->
  Spec.lifespan m < a < Spec.redGiantEnd m ->
  2.5 * (d * Rpower m 0.5) * 0.95 < S ->
  App.isDead (fst (App.SinglePlanet_frame data (Fin S) false (Fin m) (Fin a)
                     delta st)) = true.
Proof.
intros Hm Hc Hb Hd Ht Ha Hw HS.
rewrite SinglePlanet_frame_isDead by exact Ha.
rewrite getSystemPhysics_lifespan, getSystemPhysics_redGiantEnd by exact Hm.
unfold App.planet_engulfed.
rewrite (circular_radius data st m a d theta) by assumption.
pose proof (agingExpansion_bounds m _ Hm (spec_massMultiplier_bounds m a)).
pose proof (Rpower_pos m 0.5).
assert (0 <= d * Rpower m 0.5) by (apply Rmult_le_pos; lra).
rewrite mul_Fin. unfold Num.gt. cbn [Num.lt negb andb].
cmp_cases; try reflexivity; exfalso; try lra; nra.
Qed.

(** X7 for Mercury and Venus at mass 1 and age 11, with a star of scale
    100: Venus becomes inert, and so does Mercury. *)
Lemma engulfment_ordered_by_distance_witness :
  App.isDead
    (fst (App.SinglePlanet_frame
            (App.circular "MERCURY" 3.5 0.15 2.0 false false) (Fin 100) false
            (Fin 1) (Fin 11) (Fin 0) (App.SinglePlanet_mount (Fin 0)))) = true.
Proof.
apply (engulfment_ordered_by_distance
         (App.circular "MERCURY" 3.5 0.15 2.0 false false)
         (App.circular "VENUS" 5.0 0.25 1.5 false false)
         (App.SinglePlanet_mount (Fin 0)) (App.SinglePlanet_mount (Fin 0))
         1 11 3.5 5.0 0 0 (Fin 100) (Fin 0) false);
  try reflexivity; try lra.
apply (large_star_engulfs _ _ 1 11 5.0 0 100); try reflexivity; try lra.
- rewrite Spec_lifespan_1, Spec_redGiantEnd_1. lra.
- rewrite Rpower_1_l. lra.
Defined.

(** ** The eccentric orbit *)

Lemma eccentric_denominator (e theta : R) :
  0 <= e < 1 -> 1 - e <= 1 + e * cos theta <= 1 + e.
Proof.
intros He. pose proof (COS_bound theta) as [Hc1 Hc2]. nra.
Qed.

Lemma eccentric_radius_bounds (D e theta : R) :
  0 <= e < 1 -> 0 <= D ->
  D * (1 - e) <= D * (1 - e * e) / (1 + e * cos theta) <= D * (1 + e).
Proof.
intros He HD. pose proof (eccentric_denominator e theta He) as Hden.
set (r := D * (1 - e * e) / (1 + e * cos theta)).
assert (E : r * (1 + e * cos theta) = D * (1 - e) * (1 + e))
  by (unfold r; field; lra).
split.
- apply (Rmult_le_reg_r (1 + e * cos theta)); [lra |]. rewrite E.
  apply Rmult_le_compat_l; [nra | lra].
- apply (Rmult_le_reg_r (1 + e * cos theta)); [lra |]. rewrite E.
  replace (D * (1 - e) * (1 + e)) with (D * (1 + e) * (1 - e)) by ring.
  apply Rmult_le_compat_l; [nra | lra].
Qed.

Lemma planet_target_eccentric (data : App.PlanetData) (D theta e i : R) :
  App.isEccentric data = true ->
  App.eccentricity data = Fin e -> App.inclination data = Fin i ->
  0 <= e < 1 ->
  App.planet_target data (Fin D) (Fin theta)
  = {| App.vx := Fin (D * (1 - e * e) / (1 + e * cos theta) * cos theta);
       App.vy := Fin (D * (1 - e * e) / (1 + e * cos theta) * sin theta
                      * sin i);
       App.vz := Fin (D * (1 - e * e) / (1 + e * cos theta) * sin theta
                      * cos i) |}.
Proof.
intros Hecc He Hi Hr. pose proof (eccentric_denominator e theta Hr) as Hden.
unfold App.planet_target. rewrite Hecc, He, Hi.
cbn [Math.cos Math.sin]. fin_arith. reflexivity.
Qed.

(** X8. The eccentric orbit: for an eccentricity [0 <= e < 1] the target
    position is at distance [r = D (1 - e^2) / (1 + e cos angle)] from the
    centre, in space, whatever the inclination, and this distance stays
    between [D (1 - e)] and [D (1 + e)], where [D] is the current base
    distance. *)
Theorem eccentric_orbit_bounds (data : App.PlanetData) (D theta e i : R) :
  App.isEccentric data = true ->
  App.eccentricity data = Fin e -> App.inclination data = Fin i ->
  0 <= e < 1 -> 0 <= D ->
  exists x y z r : R,
    App.planet_target data (Fin D) (Fin theta)
    = {| App.vx := Fin x; App.vy := Fin y; App.vz := Fin z |}
    /\ r = D * (1 - e * e) / (1 + e * cos theta)
    /\ x * x + y * y + z * z = r * r
    /\ D * (1 - e) <= r <= D * (1 + e).
Proof.
intros Hecc He Hi Hr HD.
set (r := D * (1 - e * e) / (1 + e * cos theta)).
exists (r * cos theta), (r * sin theta * sin i), (r * sin theta * cos i), r.
split; [now apply planet_target_eccentric |].
split; [reflexivity |]. split.
- pose proof (sin2_cos2 theta) as H1. pose proof (sin2_cos2 i) as H2.
  unfold Rsqr in H1, H2.
  transitivity (r * r * (cos theta * cos theta
                         + sin theta * sin theta
                           * (sin i * sin i + cos i * cos i))); [ring |].
  rewrite H2. replace (cos theta * cos theta + sin theta * sin theta * 1)
    with (sin theta * sin theta + cos theta * cos theta) by ring.
  rewrite H1. ring.
- now apply eccentric_radius_bounds.
Qed.

(** X8 for Pluto at a current base distance of 35 and angle 0. *)
Lemma eccentric_orbit_bounds_witness :
  exists x y z r : R,
    App.planet_target
      {| App.name := "PLUTO"; App.baseDist := 35.0; App.size := 0.25;
         App.speed := 0.15; App.hasMoon := false; App.hasRings := false;
         App.isEccentric := true; App.inclination := 0.3;
         App.eccentricity := 0.2 |} (Fin 35) (Fin 0)
    = {| App.vx := Fin x; App.vy := Fin y; App.vz := Fin z |}
    /\ 35 * (1 - 0.2) <= r <= 35 * (1 + 0.2)
    /\ x * x + y * y + z * z = r * r.
Proof.
destruct (eccentric_orbit_bounds
            {| App.name := "PLUTO"; App.baseDist := 35.0; App.size := 0.25;
               App.speed := 0.15; App.hasMoon := false; App.hasRings := false;
               App.isEccentric := true; App.inclination := 0.3;
               App.eccentricity := 0.2 |} 35 0 0.2 0.3)
  as [x [y [z [r [E [_ [S B]]]]]]]; try reflexivity; try lra.
exists x, y, z, r. split; [exact E |]. split; [exact B | exact S].
Defined.

(** X9. The explosion freezes the planets and not the belts: a planet is
    left exactly as it is by every sequence of frames in which the
    explosion is active, so it resumes from the same angle; a belt
    particle moves on in a frame whether the explosion is active or not,
    and whatever the scale of the star. *)
Theorem explosion_freezes_planets (data : App.PlanetData)
  (st : App.PlanetState) (frames : list App.Frame) :
  Forall (fun f => App.f_exploded f = true) frames ->
  App.planet_run data st frames = st
  /\ (forall p f b s,
        App.particle_step p
          {| App.f_starScale := s; App.f_exploded := b;
             App.f_mass := App.f_mass f; App.f_age := App.f_age f;
             App.f_delta := App.f_delta f |}
        = App.particle_step p f)
  /\ (forall p f b s,
        App.kuiper_step p
          {| App.f_starScale := s; App.f_exploded := b;
             App.f_mass := App.f_mass f; App.f_age := App.f_age f;
             App.f_delta := App.f_delta f |}
        = App.kuiper_step p f).
Proof.
intros Hall. split; [| split; reflexivity].
unfold App.planet_run. revert st.
induction Hall as [| f frames Hf _ IH]; intros st; [reflexivity |].
cbn [fold_left]. rewrite <- (IH st) at 2. f_equal.
unfold App.planet_step, App.SinglePlanet_frame. now rewrite Hf.
Qed.

(** X9 for Mercury through two frames of an explosion. *)
Lemma explosion_freezes_planets_witness :
  App.planet_run (App.circular "MERCURY" 3.5 0.15 2.0 false false)
    (App.SinglePlanet_mount (Fin 1))
    [ {| App.f_starScale := Fin 1; App.f_exploded := true;
         App.f_mass := Fin 1; App.f_age := Fin 3; App.f_delta := Fin 0.016 |};
      {| App.f_starScale := Fin 1; App.f_exploded := true;
         App.f_mass := Fin 1; App.f_age := Fin 3; App.f_delta := Fin 0.016 |} ]
  = App.SinglePlanet_mount (Fin 1).
Proof.
apply explosion_freezes_planets.
repeat constructor.
Defined.

(** ** The star's mesh and the shockwave *)

Lemma pow_fraction_bounds (q : R) (n : nat) : 0 < q <= 1 -> 0 < q ^ n <= 1.
Proof.
intros Hq. induction n as [| n IH]; cbn [pow]; [lra | nra].
Qed.

Lemma lerp_uniform (c T alpha : R) :
  App.lerp (App.uniform (Fin c)) (App.uniform (Fin T)) (Fin alpha)
  = App.uniform (Fin (c + (T - c) * alpha)).
Proof.
reflexivity.
Qed.

Lemma Star_frame_iter (settings : App.StarStats) (exploded : bool)
  (T alpha c0 : R) (n : nat) :
  (forall c, App.Star_frame settings exploded (App.uniform (Fin c))
             = App.uniform (Fin (c + (T - c) * alpha))) ->
  Nat.iter n (App.Star_frame settings exploded) (App.uniform (Fin c0))
  = App.uniform (Fin (T + (1 - alpha) ^ n * (c0 - T))).
Proof.
intros Hstep. induction n as [| n IH].
- cbn [Nat.iter nat_rect pow]. do 2 f_equal. ring.
- rewrite Nat.iter_succ, IH, Hstep. cbn [pow].
  do 2 f_equal. ring.
Qed.

(** X10. The mesh of the star closes in on its target scale without ever
    overshooting: after [n] frames with unchanged inputs, what is left of
    the initial gap is the gap times [0.95 ^ n] when the target is the
    lifecycle scale, and times [0.9 ^ n] during an explosion, where the
    target is 20 whatever the lifecycle scale. *)
Theorem star_scale_approaches_target
  (settings : App.StarStats) (T c0 : R) (n : nat) :
  App.scale settings = Fin T ->
  Nat.iter n (App.Star_frame settings false) (App.uniform (Fin c0))
  = App.uniform (Fin (T + 0.95 ^ n * (c0 - T)))
  /\ Nat.iter n (App.Star_frame settings true) (App.uniform (Fin c0))
     = App.uniform (Fin (20 + 0.9 ^ n * (c0 - 20)))
  /\ 0 < 0.95 ^ n <= 1 /\ 0 < 0.9 ^ n <= 1.
Proof.
intros HT. split; [| split; [| split; apply pow_fraction_bounds; lra]].
- replace 0.95 with (1 - 0.05) by lra. apply Star_frame_iter.
  intros c. unfold App.Star_frame. rewrite HT. apply lerp_uniform.
- replace 0.9 with (1 - 0.1) by lra. apply Star_frame_iter.
  intros c. unfold App.Star_frame. apply lerp_uniform.
Qed.

(** X10 for a star of mass 1 at age 0, two frames after it was mounted at
    scale 1. *)
Lemma star_scale_approaches_target_witness :
  Nat.iter 2 (App.Star_frame (App.useStarPhysics (Fin 1) (Fin 0)) false)
    (App.uniform (Fin 1))
  = App.uniform
      (Fin (Spec.baseSize 1 + 0.95 ^ 2 * (1 - Spec.baseSize 1))).
Proof.
apply (star_scale_approaches_target _ (Spec.baseSize 1) 1 2).
apply useStarPhysics_main; [lra | rewrite Spec_lifespan_1; lra].
Defined.

Lemma MathUtils_lerp_Fin (x y t : R) :
  App.MathUtils_lerp (Fin x) (Fin y) (Fin t) = Fin ((1 - t) * x + t * y).
Proof.
reflexivity.
Qed.

(** X11. The shockwave ring exists only while the explosion is active. It
    is mounted at scale 1 and fully opaque; after [n] frames of explosion
    its scale is [60 - 59 * 0.95 ^ n], growing from 1 towards 60 without
    reaching it, and its opacity is [0.95 ^ n], fading without reaching 0.
    When the explosion is over the ring is removed, so the next explosion
    starts from scale 1 again. *)
Theorem shockwave_growth (n : nat) :
  Nat.iter n (App.Shockwave_frame true) (App.Shockwave_render true None)
  = Some {| App.sw_scale := App.uniform (Fin (60 - 59 * 0.95 ^ n));
            App.sw_opacity := Fin (0.95 ^ n) |}
  /\ 1 <= 60 - 59 * 0.95 ^ n < 60
  /\ 0 < 0.95 ^ n <= 1
  /\ (forall mesh, App.Shockwave_render false mesh = None)
  /\ App.Shockwave_render true (App.Shockwave_render false
       (Nat.iter n (App.Shockwave_frame true)
          (App.Shockwave_render true None)))
     = Some App.Shockwave_mount.
Proof.
pose proof (pow_fraction_bounds 0.95 n ltac:(lra)) as Hp.
split; [| split; [lra | split; [exact Hp | split; reflexivity]]].
clear Hp. induction n as [| n IH].
- cbn. unfold App.Shockwave_mount, App.uniform. do 4 f_equal; lra.
- rewrite Nat.iter_succ, IH.
  cbn [App.Shockwave_frame App.sw_scale App.sw_opacity App.uniform App.vx].
  rewrite !MathUtils_lerp_Fin. cbn [pow].
  f_equal. f_equal; [unfold App.uniform; f_equal; f_equal; lra | f_equal; lra].
Qed.

(** ** Explosion, reset and the revert timers over time *)

Lemma filter_none_due (t : Z) (l : list Z) :
  existsb (App.due t) l = false ->
  filter (fun d => negb (App.due t d)) l = l.
Proof.
induction l as [| d l IH]; [reflexivity |].
cbn [existsb filter]. intros H. apply orb_false_iff in H as [H1 H2].
rewrite H1. cbn [negb]. now rewrite IH.
Qed.

Lemma filter_all_due (t : Z) (l : list Z) :
  (forall d, In d l -> App.due t d = true) ->
  filter (fun d => negb (App.due t d)) l = [].
Proof.
induction l as [| d l IH]; intros H; [reflexivity |].
cbn [filter]. rewrite (H d) by (left; reflexivity). cbn [negb].
apply IH. intros d' Hin. apply H. now right.
Qed.

Lemma timers_ok_step (w : App.World) (e : App.Event) :
  Props.timers_ok w -> Props.forward e ->
  Props.timers_ok (App.World_step w e).
Proof.
intros [Hd He] Hf. destruct e as [dt | |]; cbn [App.World_step Props.forward] in *.
- split.
  + cbn [App.elapse App.timeouts App.clock]. intros d Hin.
    apply filter_In in Hin as [Hin Hnd]. specialize (Hd d Hin).
    unfold App.due in Hnd. apply negb_true_iff, Z.leb_gt in Hnd. lia.
  + unfold App.isExploding, App.elapse. cbn [App.app App.timeouts].
    destruct (existsb (App.due (App.clock w + dt)) (App.timeouts w)) eqn:E.
    * discriminate.
    * rewrite filter_none_due by exact E. exact He.
- split.
  + cbn [App.triggerDeath App.timeouts App.clock]. intros d Hin.
    apply in_app_iff in Hin as [Hin | [<- | []]]; [now apply Hd | lia].
  + intros _. cbn [App.triggerDeath App.timeouts].
    destruct (App.timeouts w); discriminate.
- split; [exact Hd | discriminate].
Qed.

Lemma timers_ok_run (es : list App.Event) (w : App.World) :
  Props.timers_ok w -> Forall Props.forward es ->
  Props.timers_ok (App.World_run w es).
Proof.
intros Hw Hes. revert w Hw. unfold App.World_run.
induction Hes as [| e es He _ IH]; intros w Hw; [exact Hw |].
cbn [fold_left]. apply IH. now apply timers_ok_step.
Qed.

Lemma timers_ok_initial : Props.timers_ok App.World_initial.
Proof.
split; [intros d [] | discriminate].
Qed.

(** X12. The application cannot get stuck in the explosion: in every
    state reached from the initial one by triggers, resets and the passage
    of time, every pending revert is due within 2000 ms, an active
    explosion has a revert pending, and 2000 ms or more without input end
    in the Normal state. *)
Theorem explosion_always_ends (es : list App.Event) (dt : Z) :
  Forall Props.forward es -> (2000 <= dt)%Z ->
  let w := App.World_run App.World_initial es in
  Props.timers_ok w
  /\ App.isExploding (App.elapse dt w) = false
  /\ App.timeouts (App.elapse dt w) = [].
Proof.
intros Hes Hdt w.
assert (Hw : Props.timers_ok w)
  by (apply timers_ok_run; [apply timers_ok_initial | exact Hes]).
split; [exact Hw |]. destruct Hw as [Hd He].
unfold App.isExploding, App.elapse in *. cbn [App.app App.timeouts].
assert (Hall : forall d, In d (App.timeouts w)
                         -> App.due (App.clock w + dt) d = true).
{ intros d Hin. specialize (Hd d Hin). unfold App.due.
  apply Z.leb_le. lia. }
split.
- destruct (App.timeouts w) as [| d l] eqn:E.
  + cbn [existsb]. destruct (App.exploded (App.app w)); [| reflexivity].
    now destruct He.
  + cbn [existsb]. rewrite (Hall d) by (left; reflexivity). reflexivity.
- now apply filter_all_due.
Qed.

(** X12 after two triggers and a reset. *)
Lemma explosion_always_ends_witness :
  App.isExploding
    (App.elapse 2000
       (App.World_run App.World_initial
          [App.TriggerDeath; App.Elapse 700; App.Reset; App.TriggerDeath]))
  = false.
Proof.
apply (explosion_always_ends
         [App.TriggerDeath; App.Elapse 700; App.Reset; App.TriggerDeath] 2000).
- repeat constructor. cbn. lia.
- lia.
Defined.

(** X13. A reset ends the explosion at once, but it does not cancel the
    pending revert: after a trigger, [d1] ms, a reset, [d2] ms and a second
    trigger, with [d1 + d2 < 2000], the explosion of the second trigger is
    reverted by the timer of the first, [2000 - d1 - d2] ms after it
    began. The reset itself sets the age to 0, stops playback, clears the
    focus and the selection, keeps the mass and increases the key under
    which the bodies are mounted. *)
Theorem reset_keeps_revert_timer (w0 : App.World) (d1 d2 : Z) :
  App.timeouts w0 = [] -> (0 <= d1)%Z -> (0 <= d2)%Z ->
  (d1 + d2 < 2000)%Z ->
  let w1 := App.World_run w0 [App.TriggerDeath; App.Elapse d1; App.Reset] in
  let w2 := App.World_run w1 [App.Elapse d2; App.TriggerDeath] in
  App.isExploding w1 = false
  /\ App.timeouts w1 = [(App.clock w0 + 2000)%Z]
  /\ App.isExploding w2 = true
  /\ App.isExploding (App.elapse (2000 - d1 - d2) w2) = false
  /\ App.age (App.app w1) = Fin 0
  /\ App.isPlaying (App.app w1) = false
  /\ App.focusTarget (App.app w1) = None
  /\ App.selectedPlanet (App.app w1) = None
  /\ App.mass (App.app w1) = App.mass (App.app w0)
  /\ App.resetKey (App.app w1) = S (App.resetKey (App.app w0)).
Proof.
intros Hw H1 H2 H3 w1 w2. subst w1 w2.
unfold App.World_run, App.isExploding. cbn [fold_left App.World_step].
unfold App.World_reset, App.triggerDeath, App.elapse.
cbn [App.app App.clock App.timeouts]. rewrite Hw.
cbn [List.app filter existsb].
repeat split; try reflexivity; due_cases; reflexivity.
Qed.

(** X13 from the initial state, with a reset 500 ms after the trigger and
    a second trigger 300 ms later. *)
Lemma reset_keeps_revert_timer_witness :
  App.isExploding
    (App.elapse (2000 - 500 - 300)
       (App.World_run
          (App.World_run App.World_initial
             [App.TriggerDeath; App.Elapse 500; App.Reset])
          [App.Elapse 300; App.TriggerDeath])) = false.
Proof.
apply (reset_keeps_revert_timer App.World_initial 500 300);
  try reflexivity; lia.
Defined.

(** ** Playback to the end *)

Lemma playback_step_stopped (s : App.AppState) :
  App.isPlaying s = false -> App.playback_step s = s.
Proof.
intros H. unfold App.playback_step, App.interval_installed. now rewrite H.
Qed.

Lemma playback_run_stopped (n : nat) (s : App.AppState) :
  App.isPlaying s = false -> Nat.iter n App.playback_step s = s.
Proof.
intros H. induction n as [| n IH]; [reflexivity |].
rewrite Nat.iter_succ, IH. now apply playback_step_stopped.
Qed.

Lemma playback_step_playing (s : App.AppState) (a : R) :
  App.isPlaying s = true -> App.age s = Fin a -> a < 15 ->
  App.playback_step s
  = if Rle_dec 14.9 a
    then App.setIsPlaying false (App.setAge (Fin 15) s)
    else App.setAge (Fin (a + 0.05)) s.
Proof.
intros Hp Ea Ha. unfold App.playback_step, App.interval_installed.
rewrite Hp, Ea. cbn [Num.lt andb].
destruct (Rlt_dec a 15); [| lra]. now apply interval_tick_eq.
Qed.

(** Playback that needs at most [n] additions of 0.05 to reach 14.9 has
    stopped at 15 after [n + 1] steps. *)
Lemma playback_reaches_end_in (n : nat) (s : App.AppState) (a : R) :
  App.isPlaying s = true -> App.age s = Fin a -> a < 15 ->
  14.9 - a <= 0.05 * INR n ->
  App.age (Nat.iter (S n) App.playback_step s) = Fin 15
  /\ App.isPlaying (Nat.iter (S n) App.playback_step s) = false.
Proof.
revert s a. induction n as [| n IH]; intros s a Hp Ea Ha Hn.
- cbn [INR] in Hn. cbn [Nat.iter nat_rect].
  rewrite (playback_step_playing s a Hp Ea Ha).
  destruct (Rle_dec 14.9 a); [split; reflexivity | lra].
- rewrite Nat.iter_succ_r, (playback_step_playing s a Hp Ea Ha).
  destruct (Rle_dec 14.9 a) as [Hc | Hc].
  + rewrite playback_run_stopped by reflexivity. split; reflexivity.
  + apply (IH _ (a + 0.05)); try reflexivity; try exact Hp; try lra.
    rewrite S_INR in Hn. lra.
Qed.

(** X14. Playback started at any age from 0 up to, but not including, 15
    comes to its end: after 299 firings of the interval the age is exactly
    15 and the playing flag is off, and no later firing changes anything.
    Started at age 15 itself the interval is never installed: the flag
    stays set and the age stays 15. *)
Theorem playback_reaches_end (s : App.AppState) (a : R) :
  App.isPlaying s = true -> App.age s = Fin a -> 0 <= a <= 15 ->
  let t := Nat.iter 299 App.playback_step s in
  (a < 15 ->
     App.age t = Fin 15 /\ App.isPlaying t = false
     /\ forall n, Nat.iter n App.playback_step t = t)
  /\ (a = 15 -> forall n, Nat.iter n App.playback_step s = s).
Proof.
intros Hp Ea Ha t. subst t. split.
- intros H15.
  assert (H298 : INR 298 = 298) by (rewrite INR_IZR_INZ; reflexivity).
  destruct (playback_reaches_end_in 298 s a Hp Ea H15) as [E1 E2];
    [rewrite H298; lra |].
  split; [exact E1 |]. split; [exact E2 |].
  intros n. now apply playback_run_stopped.
- intros -> n. induction n as [| n IH]; [reflexivity |].
  rewrite Nat.iter_succ, IH.
  unfold App.playback_step, App.interval_installed.
  rewrite Hp, Ea. cbn [Num.lt andb]. destruct (Rlt_dec 15 15); [lra |].
  reflexivity.
Qed.

(** X14 for the initial state with playback switched on. *)
Lemma playback_reaches_end_witness :
  App.age (Nat.iter 299 App.playback_step (App.toggleTime App.App_initial))
  = Fin 15
  /\ App.isPlaying
       (Nat.iter 299 App.playback_step (App.toggleTime App.App_initial))
     = false.
Proof.
assert (Hp : App.isPlaying (App.toggleTime App.App_initial) = true)
  by reflexivity.
assert (Ea : App.age (App.toggleTime App.App_initial) = Fin 0)
  by reflexivity.
assert (Ha : 0 <= 0 <= 15) by lra.
destruct (playback_reaches_end _ 0 Hp Ea Ha) as [T _].
destruct T as [E1 [E2 _]]; [lra |].
split; [exact E1 | exact E2].
Defined.

(** ** Focus and selection *)

Lemma SinglePlanet_frame_quiet
  (data : App.PlanetData) (starScale : number) (exploded : bool)
  (starMass starAge delta : number) (st : App.PlanetState) :
  snd (App.SinglePlanet_frame data starScale exploded starMass starAge
         delta st) = false ->
  App.isDead (fst (App.SinglePlanet_frame data starScale exploded starMass
                     starAge delta st)) = App.isDead st.
Proof.
unfold App.SinglePlanet_frame.
destruct (exploded || App.isDead st); [reflexivity |].
cbn [fst snd App.isDead]. intros ->. reflexivity.
Qed.

Lemma existsb_false_In {A : Type} (f : A -> bool) (l : list A) (x : A) :
  existsb f l = false -> In x l -> f x = false.
Proof.
intros H Hin. destruct (f x) eqn:E; [| reflexivity].
assert (existsb f l = true) by (apply existsb_exists; now exists x).
congruence.
Qed.

Lemma selection_ok_onApp (g : App.AppState -> App.AppState) (sc : App.Scene) :
  (forall s, App.focusTarget (g s) = App.focusTarget s
             /\ App.selectedPlanet (g s) = App.selectedPlanet s) ->
  Props.selection_ok sc -> Props.selection_ok (App.onApp g sc).
Proof.
intros Hg [H1 H2]. destruct (Hg (App.sc_app sc)) as [G1 G2].
split; cbn [App.onApp App.sc_app App.sc_planets].
- congruence.
- intros n Hn. rewrite G2 in Hn. now apply H2.
Qed.

Lemma selection_ok_cleared (sc : App.Scene) :
  Props.selection_ok (App.onApp App.clearSelection sc).
Proof.
split; [reflexivity | discriminate].
Qed.

Lemma playback_step_selection (s : App.AppState) :
  App.focusTarget (App.playback_step s) = App.focusTarget s
  /\ App.selectedPlanet (App.playback_step s) = App.selectedPlanet s.
Proof.
unfold App.playback_step, App.interval_tick.
destruct (App.interval_installed s); [| split; reflexivity].
destruct (App.age_updater (App.age s)) as [a [|]]; split; reflexivity.
Qed.

Lemma selection_ok_frame (delta : number) (sc : App.Scene) :
  Props.selection_ok sc -> Props.selection_ok (App.Scene_frame delta sc).
Proof.
intros [H1 H2]. unfold App.Scene_frame.
match goal with
| |- context [existsb ?f ?l] => destruct (existsb f l) eqn:E
end.
- split; [reflexivity | discriminate].
- split; cbn [App.sc_app App.sc_planets]; [exact H1 |].
  intros n Hn. destruct (H2 n Hn) as [data [st [Hin [Hname Halive]]]].
  set (fr := App.SinglePlanet_frame data
               (App.f_starScale (App.App_frame (App.sc_app sc) delta))
               (App.f_exploded (App.App_frame (App.sc_app sc) delta))
               (App.f_mass (App.App_frame (App.sc_app sc) delta))
               (App.f_age (App.App_frame (App.sc_app sc) delta))
               (App.f_delta (App.App_frame (App.sc_app sc) delta)) st).
  exists data, (fst fr). split; [| split; [exact Hname |]].
  + rewrite map_map. apply in_map_iff. exists (data, st).
    split; [reflexivity | exact Hin].
  + assert (Q : snd fr = false).
    { apply (existsb_false_In _ _ (data, fr) E).
      apply in_map_iff. exists (data, st). split; [reflexivity | exact Hin]. }
    unfold fr in *. rewrite SinglePlanet_frame_quiet by exact Q.
    exact Halive.
Qed.

Lemma selection_ok_step (sc : App.Scene) (e : App.SceneEvent) :
  Props.selection_ok sc -> Props.selection_ok (App.Scene_step sc e).
Proof.
intros H. destruct e; cbn [App.Scene_step].
- now apply selection_ok_frame.
- unfold App.Scene_click.
  destruct (nth_error (App.sc_planets sc) i) as [[data st] |] eqn:E;
    [| exact H].
  destruct (App.isDead st) eqn:Hd; [exact H |].
  split; cbn [App.sc_app App.sc_planets App.SinglePlanet_handleClick
              App.focusTarget App.selectedPlanet]; [reflexivity |].
  intros n Hn. injection Hn as <-. exists data, st.
  split; [now apply (nth_error_In _ i) | split; [reflexivity | exact Hd]].
- apply selection_ok_cleared.
- apply selection_ok_cleared.
- apply selection_ok_onApp; [intros s; split; reflexivity | exact H].
- apply selection_ok_onApp; [intros s; split; reflexivity | exact H].
- apply selection_ok_onApp; [intros s; split; reflexivity | exact H].
- apply selection_ok_onApp; [apply playback_step_selection | exact H].
- apply selection_ok_onApp; [intros s; split; reflexivity | exact H].
- split; [reflexivity | discriminate].
Qed.

(** X15. The selection never dangles: in every state the scene reaches
    from its initial one by frames, clicks on planets, on the star and on
    the background, changes of mass and age, playback, explosions and
    resets, the focus and the selection name the same planet, and a
    selected planet is mounted and not inert. *)
Theorem selection_never_dangles
  (angles : list number) (es : list App.SceneEvent) :
  Props.selection_ok
    (App.Scene_run (App.Scene_mount App.App_initial angles) es).
Proof.
unfold App.Scene_run.
assert (H0 : Props.selection_ok (App.Scene_mount App.App_initial angles))
  by (split; [reflexivity | discriminate]).
revert H0. generalize (App.Scene_mount App.App_initial angles).
induction es as [| e es IH]; intros sc Hsc; [exact Hsc |].
cbn [fold_left]. apply IH. now apply selection_ok_step.
Qed.

(** ** How the belts are made *)

(** X16. Whatever [Math.random] returns, a particle of the inner belt is
    made with a base distance in [10.5, 13), a speed in [0.5, 1), a
    vertical offset in [-0.75, 0.75), a size in [0.05, 0.13) and an angle
    within a full turn; a particle of the Kuiper belt with a base distance
    in [30, 50), a speed in [0.1, 0.3), a vertical offset in [-1.5, 1.5)
    and a size in [0.08, 0.18). At every mass and age the particle of the
    inner belt is closer to the centre than the one of the Kuiper belt. *)
Theorem belt_generation_ranges
  (r1 r2 r3 r4 r5 q1 q2 q3 q4 q5 : number) (m a : R) :
  Props.random_value r1 -> Props.random_value r2 -> Props.random_value r3 ->
  Props.random_value r4 -> Props.random_value r5 ->
  Props.random_value q1 -> Props.random_value q2 -> Props.random_value q3 ->
  Props.random_value q4 -> Props.random_value q5 ->
  0 < m ->
  let inner := App.AsteroidBelt_make r1 r2 r3 r4 r5 in
  let outer := App.KuiperBelt_make q1 q2 q3 q4 q5 in
  (exists theta d v y s : R,
     inner = {| App.p_angle := Fin theta; App.p_dist := Fin d;
                App.p_speed := Fin v; App.p_yOffset := Fin y;
                App.p_size := Fin s |}
     /\ 0 <= theta < 2 * PI /\ 10.5 <= d < 13 /\ 0.5 <= v < 1
     /\ -0.75 <= y < 0.75 /\ 0.05 <= s < 0.13)
  /\ (exists theta d v y s : R,
     outer = {| App.p_angle := Fin theta; App.p_dist := Fin d;
                App.p_speed := Fin v; App.p_yOffset := Fin y;
                App.p_size := Fin s |}
     /\ 0 <= theta < 2 * PI /\ 30 <= d < 50 /\ 0.1 <= v < 0.3
     /\ -1.5 <= y < 1.5 /\ 0.08 <= s < 0.18)
  /\ (exists D_in D_out : R,
     App.particle_currentDist (Fin m) (Fin a) inner = Fin D_in
     /\ App.particle_currentDist (Fin m) (Fin a) outer = Fin D_out
     /\ 0 < D_in < D_out).
Proof.
intros [x1 [-> H1]] [x2 [-> H2]] [x3 [-> H3]] [x4 [-> H4]] [x5 [-> H5]]
       [y1 [-> G1]] [y2 [-> G2]] [y3 [-> G3]] [y4 [-> G4]] [y5 [-> G5]]
       Hm inner outer.
pose proof PI_RGT_0 as Hpi.
split; [| split].
- exists (x1 * PI * 2), (10.5 + x2 * 2.5), (0.5 + x3 * 0.5),
    ((x4 - 0.5) * 1.5), (0.05 + x5 * 0.08).
  split; [reflexivity |]. repeat split; nra.
- exists (y1 * PI * 2), (30.0 + y2 * 20.0), (0.1 + y3 * 0.2),
    ((y4 - 0.5) * 3.0), (0.08 + y5 * 0.1).
  split; [reflexivity |]. repeat split; nra.
- pose proof (agingExpansion_bounds m _ Hm (spec_massMultiplier_bounds m a))
    as Hx.
  pose proof (Rpower_pos m 0.5) as Hp.
  assert (Hf : 0 < m / (m * Spec.massMultiplier m a) * Rpower m 0.5)
    by (apply Rmult_lt_0_compat; lra).
  exists ((10.5 + x2 * 2.5)
          * (m / (m * Spec.massMultiplier m a) * Rpower m 0.5)),
         ((30.0 + y2 * 20.0)
          * (m / (m * Spec.massMultiplier m a) * Rpower m 0.5)).
  split; [now apply particle_currentDist_Fin |].
  split; [now apply particle_currentDist_Fin |].
  split; [apply Rmult_lt_0_compat; lra |].
  apply Rmult_lt_compat_r; lra.
Qed.

(** X16 with every value of [Math.random] equal to 0.5, at mass 1 and
    age 0. *)
Lemma belt_generation_ranges_witness :
  exists theta d v y s : R,
    App.AsteroidBelt_make (Fin 0.5) (Fin 0.5) (Fin 0.5) (Fin 0.5) (Fin 0.5)
    = {| App.p_angle := Fin theta; App.p_dist := Fin d;
         App.p_speed := Fin v; App.p_yOffset := Fin y;
         App.p_size := Fin s |}
    /\ 0 <= theta < 2 * PI /\ 10.5 <= d < 13 /\ 0.5 <= v < 1
    /\ -0.75 <= y < 0.75 /\ 0.05 <= s < 0.13.
Proof.
assert (H : Props.random_value (Fin 0.5))
  by (exists 0.5; split; [reflexivity | lra]).
assert (H1 : 0 < 1) by lra.
apply (belt_generation_ranges _ _ _ _ _ _ _ _ _ _ 1 0
         H H H H H H H H H H H1).
Defined.

(** ** The stand-alone hook *)

Lemma hook_progress (m a : R) :
  0 < m ->
  (Fin a / Hook.lifespan (Fin m))%js = Fin (a / (10 / (m * m))).
Proof.
intros Hm. unfold Hook.lifespan. rewrite mul_Fin.
assert (0 < m * m) by nra.
rewrite div_Fin by lra.
assert (0 < 10 / (m * m)) by (apply div_gt_0; lra).
apply div_Fin. lra.
Qed.

(** X17. The stand-alone hook, for a mass above 0 and any finite age: the
    progress is [age * mass^2 / 10]; the star is a Proto-Star
    exactly when the progress is below 0.1; a star of more than 8 masses
    is never a Red Dwarf, in the Main Sequence or a Red Giant, and a star
    of less than 0.8 masses is never a Blue Supergiant, in the Main
    Sequence or a Wolf-Rayet star; the scale always lies between half the
    mass and four times the mass. *)
Theorem hook_stages (m a : R) :
  0 < m ->
  let st := Hook.useStarPhysics (Fin m) (Fin a) in
  exists s : R,
    Hook.progress st = Fin (a * (m * m) / 10)
    /\ Hook.scale st = Fin s /\ 0.5 * m <= s <= 4 * m
    /\ (Hook.stage st = "Proto-Star"%string <-> a * (m * m) / 10 < 0.1)
    /\ (8 < m ->
        Hook.stage st <> "Red Dwarf"%string
        /\ Hook.stage st <> "Main Sequence"%string
        /\ Hook.stage st <> "Red Giant"%string)
    /\ (m < 0.8 ->
        Hook.stage st <> "Blue Supergiant"%string
        /\ Hook.stage st <> "Main Sequence"%string
        /\ Hook.stage st <> "Wolf-Rayet"%string).
Proof.
intros Hm st. subst st.
assert (Ep : a / (10 / (m * m)) = a * (m * m) / 10) by (field; lra).
unfold Hook.useStarPhysics. rewrite hook_progress by exact Hm. rewrite Ep.
unfold Num.gt. cbn [Num.lt Num.le].
destruct (Rlt_dec (a * (m * m) / 10) 0.1) as [P1 | P1].
{ exists (m * 0.5). cbn [Hook.progress Hook.scale Hook.stage].
  rewrite mul_Fin.
  repeat split; try reflexivity; try lra; try discriminate; auto. }
destruct (Rlt_dec (a * (m * m) / 10) 0.9) as [P2 | P2].
- destruct (Rlt_dec m 0.8) as [M1 | M1];
    [| destruct (Rlt_dec 8 m) as [M2 | M2]].
  + exists m. cbn [Hook.progress Hook.scale Hook.stage].
    repeat split; try reflexivity; try lra; try discriminate.
  + exists (m * 1.5). cbn [Hook.progress Hook.scale Hook.stage].
    rewrite mul_Fin.
    repeat split; try reflexivity; try lra; try discriminate.
  + exists m. cbn [Hook.progress Hook.scale Hook.stage].
    repeat split; try reflexivity; try lra; try discriminate.
- destruct (Rle_dec m 8) as [M1 | M1].
  + exists (m * 4). cbn [Hook.progress Hook.scale Hook.stage].
    rewrite mul_Fin.
    repeat split; try reflexivity; try lra; try discriminate.
  + exists (m * 0.8). cbn [Hook.progress Hook.scale Hook.stage].
    rewrite mul_Fin.
    repeat split; try reflexivity; try lra; try discriminate.
Qed.

(** X17 at mass 10 and age 0.05. *)
Lemma hook_stages_witness :
  Hook.stage (Hook.useStarPhysics (Fin 10) (Fin 0.05)) <> "Red Giant"%string.
Proof.
assert (H1 : 0 < 10) by lra.
destruct (hook_stages 10 0.05 H1) as [s [_ [_ [_ [_ [H _]]]]]].
apply H. lra.
Defined.

(** ** The star against the catalogue *)

Lemma cosh_ge_1 (x : R) : 1 <= cosh x.
Proof.
unfold cosh. rewrite exp_Ropp.
pose proof (exp_pos x) as He.
assert (E : exp x + / exp x - 2 = (exp x - 1) * (exp x - 1) * / exp x)
  by (field; lra).
assert (0 < / exp x) by (apply Rinv_0_lt_compat; lra).
assert (0 <= (exp x - 1) * (exp x - 1) * / exp x)
  by (apply Rmult_le_pos; [apply (Rle_0_sqr (exp x - 1)) | lra]).
lra.
Qed.

Lemma sinh_ge (s : R) : 0 <= s -> s <= sinh s.
Proof.
intros Hs.
assert (pr : derivable (sinh - id)%F).
{ apply derivable_minus; [apply derivable_sinh | apply derivable_id]. }
assert (Hinc : increasing (sinh - id)%F).
{ apply (nonneg_derivative_1 _ pr). intros x.
  rewrite (pr_nu _ x (pr x)
             (derivable_pt_minus sinh id x (derivable_pt_sinh x)
                (derivable_pt_id x))).
  rewrite derive_pt_minus, derive_pt_sinh, derive_pt_id.
  pose proof (cosh_ge_1 x). lra. }
specialize (Hinc 0 s Hs). unfold minus_fct, id in Hinc.
rewrite sinh_0 in Hinc. lra.
Qed.

Lemma ln_le_half_diff (t : R) : 1 <= t -> 2 * ln t <= t - / t.
Proof.
intros Ht.
assert (Hs : 0 <= ln t).
{ rewrite <- ln_1.
  destruct Ht as [Ht | <-]; [left; apply ln_increasing; lra | lra]. }
pose proof (sinh_ge (ln t) Hs) as H.
unfold sinh in H. rewrite exp_Ropp, exp_ln in H by lra. lra.
Qed.

(** A bound on the logarithm by fourth roots. *)
Lemma ln_1p_le (m : R) :
  0 <= m ->
  ln (1 + m) <= 2 * (sqrt (sqrt (1 + m)) - / sqrt (sqrt (1 + m))).
Proof.
intros Hm.
set (t := sqrt (sqrt (1 + m))).
assert (Hu : 1 <= sqrt (1 + m)).
{ rewrite <- sqrt_1 at 1. apply sqrt_le_1_alt. lra. }
assert (Ht : 1 <= t).
{ unfold t. rewrite <- sqrt_1 at 1. apply sqrt_le_1_alt. lra. }
assert (E : 1 + m = (t * t) * (t * t)).
{ unfold t. rewrite sqrt_sqrt by lra. rewrite sqrt_sqrt by lra. reflexivity. }
rewrite E. rewrite !ln_mult by nra.
pose proof (ln_le_half_diff t Ht). lra.
Qed.

Lemma fourth_root_bound (m : R) :
  0 < m ->
  7.8402 * (sqrt (sqrt (1 + m)) - / sqrt (sqrt (1 + m))) <= 3.325 * sqrt m.
Proof.
intros Hm.
set (u := sqrt (1 + m)). set (t := sqrt u). set (S := sqrt m).
assert (Hu : 1 <= u).
{ unfold u. rewrite <- sqrt_1 at 1. apply sqrt_le_1_alt. lra. }
assert (Ht : 1 <= t).
{ unfold t. rewrite <- sqrt_1 at 1. apply sqrt_le_1_alt. lra. }
assert (Ett : t * t = u) by (unfold t; apply sqrt_sqrt; lra).
assert (Euu : u * u = 1 + m) by (unfold u; apply sqrt_sqrt; lra).
assert (ESS : S * S = m) by (unfold S; apply sqrt_sqrt; lra).
assert (HS : 0 <= S) by (unfold S; apply sqrt_pos).
assert (Etw : t * / t = 1) by (apply Rinv_r; lra).
apply (Rmult_le_reg_l t); [lra |].
replace (t * (7.8402 * (t - / t))) with (7.8402 * (u - 1))
  by (rewrite <- Ett; lra).
apply Rsqr_incr_0_var; [| apply Rmult_le_pos; [lra | apply Rmult_le_pos; lra]].
unfold Rsqr.
assert (EB : t * (3.325 * S) * (t * (3.325 * S))
             = 11.055625 * u * (u * u - 1)).
{ transitivity (3.325 * 3.325 * ((t * t) * (S * S))); [ring |].
  rewrite Ett, ESS, Euu. lra. }
rewrite EB.
assert (Q : 0 <= 11.055625 * u * (u + 1) - 61.46873604 * (u - 1)).
{ pose proof (Rle_0_sqr (u - 2.28)) as Hsq. unfold Rsqr in Hsq. lra. }
assert (P : 0 <= (u - 1) * (11.055625 * u * (u + 1) - 61.46873604 * (u - 1)))
  by (apply Rmult_le_pos; lra).
lra.
Qed.

(** The scale of the red giant against the orbit of Mercury: the scale
    [1.5 ln (m + 1) (1 + 5 p)] never exceeds 0.95 times the radius
    [3.5 sqrt m / (1 - 0.6 p)]. *)
Lemma star_below_mercury (m p : R) :
  0 < m -> 0 <= p <= 1 ->
  ln (m + 1) * 1.5 * (1 + p * 5)
  <= 3.5 * sqrt m * (m / (m * (1 - 0.6 * p))) * 0.95.
Proof.
intros Hm Hp.
assert (HK : 0.4 <= 1 - 0.6 * p <= 1) by lra.
replace (m / (m * (1 - 0.6 * p))) with (/ (1 - 0.6 * p)) by (field; lra).
assert (HL : 0 <= ln (m + 1)).
{ rewrite <- ln_1. left. apply ln_increasing; lra. }
pose proof (ln_1p_le m ltac:(lra)) as H1.
pose proof (fourth_root_bound m Hm) as H2.
replace (1 + m) with (m + 1) in H1 by ring.
replace (1 + m) with (m + 1) in H2 by ring.
assert (Hq : (1 + p * 5) * (1 - 0.6 * p) <= 2.6134).
{ pose proof (Rle_0_sqr (p - 11 / 15)) as Hsq. unfold Rsqr in Hsq. lra. }
assert (H3 : ln (m + 1) * 1.5 * ((1 + p * 5) * (1 - 0.6 * p))
             <= 3.325 * sqrt m).
{ assert (ln (m + 1) * 1.5 * ((1 + p * 5) * (1 - 0.6 * p))
          <= ln (m + 1) * 1.5 * 2.6134).
  { apply Rmult_le_compat_l; [nra | exact Hq]. }
  nra. }
apply (Rmult_le_reg_r (1 - 0.6 * p)); [lra |].
replace (3.5 * sqrt m * / (1 - 0.6 * p) * 0.95 * (1 - 0.6 * p))
  with (3.5 * sqrt m * 0.95) by (field; lra).
lra.
Qed.

(** Inside the red-giant window the scale that [useStarPhysics] gives the
    star stays below 0.95 times the radius of an orbit of base distance
    3.5. *)
Lemma app_star_scale_bound (m a : R) :
  0 < m -> Spec.lifespan m < a < Spec.redGiantEnd m ->
  exists S : R,
    App.scale (App.useStarPhysics (Fin m) (Fin a)) = Fin S
    /\ S <= 3.5 * Rpower m 0.5 * (m / (m * Spec.massMultiplier m a)) * 0.95.
Proof.
intros Hm Hw.
destruct (useStarPhysics_giant m a Hm) as [_ E]; try lra.
exists (Spec.baseSize m * (1 + Spec.phaseProgress m a * 5)).
split; [exact E |].
pose proof (phaseProgress_bounds m a (proj1 Hw) (proj2 Hw)) as Hp.
rewrite Rpower_half by exact Hm.
unfold Spec.massMultiplier. cmp_cases; try lra.
unfold Spec.baseSize. apply star_below_mercury; lra.
Qed.

Lemma not_gt_Fin (S x : R) : S <= x -> (Fin S >? Fin x)%js = false.
Proof.
intros H. unfold Num.gt. cbn [Num.lt]. destruct (Rlt_dec x S); [lra | easy].
Qed.

(** With the scale of the application's own star, the death logic never
    fires for a body whose distance from the centre is at least that of an
    orbit of base distance 3.5. *)
Lemma app_star_never_engulfs (m a : R) (target : App.Vec3) (q : R) :
  0 < m ->
  App.distFromCenter target = Fin q ->
  3.5 * Rpower m 0.5 * (m / (m * Spec.massMultiplier m a)) <= q ->
  App.planet_engulfed (App.scale (App.useStarPhysics (Fin m) (Fin a)))
    (Fin a) (Fin (Spec.lifespan m)) (Fin (Spec.redGiantEnd m)) target = false.
Proof.
intros Hm Eq Hq. unfold App.planet_engulfed, Num.gt. cbn [Num.lt].
destruct (Rlt_dec (Spec.lifespan m) a) as [H1 | H1]; [| reflexivity].
destruct (Rlt_dec a (Spec.redGiantEnd m)) as [H2 | H2]; [| reflexivity].
cbn [andb]. destruct (app_star_scale_bound m a Hm (conj H1 H2)) as [S [E HS]].
rewrite E, Eq, mul_Fin. fold (Num.gt (Fin S) (Fin (q * 0.95))).
rewrite not_gt_Fin by lra. reflexivity.
Qed.

Lemma cos_03 : 0.9 < cos 0.3.
Proof.
pose proof PI2_1 as Hpi.
assert (Hc : 0 < cos 0.3) by (apply cos_gt_0; lra).
assert (Hs1 : 0 < sin 0.3) by (apply sin_gt_0; lra).
assert (Hs2 : sin 0.3 < 0.3) by (apply sin_lt_x; lra).
pose proof (sin2_cos2 0.3) as H. unfold Rsqr in H. nra.
Qed.

(** The distance from the centre, in the orbital plane, of a planet on a
    tilted eccentric orbit is at least the least radius of the orbit times
    the cosine of the inclination. *)
Lemma eccentric_distance_lower (data : App.PlanetData) (D theta e i : R) :
  App.isEccentric data = true ->
  App.eccentricity data = Fin e -> App.inclination data = Fin i ->
  0 <= e < 1 -> 0 <= D -> 0 <= cos i ->
  exists q : R,
    App.distFromCenter (App.planet_target data (Fin D) (Fin theta)) = Fin q
    /\ D * (1 - e) * cos i <= q.
Proof.
intros Hecc He Hi Hr HD Hci.
rewrite (planet_target_eccentric data D theta e i) by assumption.
pose proof (eccentric_radius_bounds D e theta Hr HD) as [Hr1 _].
set (r := D * (1 - e * e) / (1 + e * cos theta)) in *.
assert (Hr0 : 0 <= r) by nra.
pose proof (COS_bound i) as [_ Hc1].
pose proof (sin2_cos2 theta) as Hsc. unfold Rsqr in Hsc.
unfold App.distFromCenter. cbn [App.vx App.vz]. fin_arith.
assert (Hlow : (r * cos i) * (r * cos i)
               <= r * cos theta * (r * cos theta)
                  + r * sin theta * cos i * (r * sin theta * cos i)).
{ assert (A : 0 <= r * r * (cos theta * cos theta) * (1 - cos i * cos i)).
  { apply Rmult_le_pos; [| nra].
    apply Rmult_le_pos; [nra | apply (Rle_0_sqr (cos theta))]. }
  assert (B : r * cos theta * (r * cos theta)
              + r * sin theta * cos i * (r * sin theta * cos i)
              - r * cos i * (r * cos i)
              = r * r * (cos theta * cos theta) * (1 - cos i * cos i)
                + r * r * (cos i * cos i)
                  * (sin theta * sin theta + cos theta * cos theta - 1))
    by ring.
  rewrite Hsc in B. lra. }
assert (Hnn : 0 <= r * cos theta * (r * cos theta)
                   + r * sin theta * cos i * (r * sin theta * cos i)).
{ pose proof (Rle_0_sqr (r * cos i)) as H0. unfold Rsqr in H0. lra. }
rewrite sqrt_Fin by exact Hnn. eexists; split; [reflexivity |].
apply Rle_trans with (r * cos i); [nra |].
rewrite <- (sqrt_square (r * cos i)) at 1 by nra.
now apply sqrt_le_1_alt.
Qed.

Lemma frame_target_unfold (data : App.PlanetData) (st : App.PlanetState)
  (m a theta : R) (d : R) :
  0 < m -> App.baseDist data = Fin d -> App.angle st = Fin theta ->
  App.frame_target data (Fin m) (Fin a) st
  = App.planet_target data
      (Fin (d * Rpower m 0.5 * (m / (m * Spec.massMultiplier m a))))
      (Fin theta).
Proof.
intros Hm Hb Ht. pose proof (spec_massMultiplier_bounds m a) as Hk.
unfold App.frame_target, App.agingExpansion, App.initialSystemScale.
rewrite Hb, Ht, currentMass_Fin, pow_Fin by lra.
rewrite (div_Fin m) by nra. reflexivity.
Qed.

(** Every planet of the catalogue stays at least as far out as an orbit of
    base distance 3.5. *)
Lemma catalogue_distance (data : App.PlanetData) (st : App.PlanetState)
  (m a theta : R) :
  0 < m -> In data App.planets -> App.angle st = Fin theta ->
  exists q : R,
    App.distFromCenter (App.frame_target data (Fin m) (Fin a) st) = Fin q
    /\ 3.5 * Rpower m 0.5 * (m / (m * Spec.massMultiplier m a)) <= q.
Proof.
intros Hm Hin Ht.
pose proof (agingExpansion_bounds m _ Hm (spec_massMultiplier_bounds m a))
  as Hx.
pose proof (Rpower_pos m 0.5) as Hp.
set (f := Rpower m 0.5 * (m / (m * Spec.massMultiplier m a))).
assert (Hf : 0 < f) by (apply Rmult_lt_0_compat; lra).
assert (Circ : forall d, App.isEccentric data = false ->
                 App.baseDist data = Fin d -> 3.5 <= d ->
                 exists q : R,
                   App.distFromCenter
                     (App.frame_target data (Fin m) (Fin a) st) = Fin q
                   /\ 3.5 * Rpower m 0.5
                      * (m / (m * Spec.massMultiplier m a)) <= q).
{ intros d Hc Hb Hd. eexists. split.
  - apply (circular_radius data st m a d theta); (assumption || lra).
  - fold f. rewrite !Rmult_assoc. fold f. nra. }
unfold App.planets in Hin. cbn [In] in Hin.
repeat (destruct Hin as [<- | Hin];
        [eapply Circ; [reflexivity | reflexivity | lra] |]).
destruct Hin as [<- | []].
rewrite (frame_target_unfold _ st m a theta 35.0) by (reflexivity || assumption).
destruct (eccentric_distance_lower
            {| App.name := "PLUTO"; App.baseDist := 35.0; App.size := 0.25;
               App.speed := 0.15; App.hasMoon := false; App.hasRings := false;
               App.isEccentric := true; App.inclination := 0.3;
               App.eccentricity := 0.2 |}
            (35.0 * Rpower m 0.5 * (m / (m * Spec.massMultiplier m a)))
            theta 0.2 0.3) as [q [Eq Hq]];
  try reflexivity; try lra.
- apply Rmult_le_pos; [apply Rmult_le_pos |]; lra.
- pose proof cos_03. lra.
- exists q. split; [exact Eq |]. clear Circ Eq.
  pose proof cos_03 as Hc.
  assert (E1 : 35.0 * Rpower m 0.5 * (m / (m * Spec.massMultiplier m a))
               = 35 * f) by (unfold f; lra).
  assert (E2 : 3.5 * Rpower m 0.5 * (m / (m * Spec.massMultiplier m a))
               = 3.5 * f) by (unfold f; lra).
  rewrite E1 in Hq. rewrite E2.
  assert (f * 0.9 <= f * cos 0.3) by (apply Rmult_le_compat_l; lra).
  lra.
Qed.

(** With the scale of the application's own star no planet of the
    catalogue becomes inert. *)
Lemma catalogue_planet_survives
  (m a : R) (exploded : bool) (delta : number)
  (data : App.PlanetData) (st : App.PlanetState) (theta : R) :
  0 < m -> In data App.planets -> App.angle st = Fin theta ->
  App.isDead st = false ->
  App.isDead
    (fst (App.SinglePlanet_frame data
            (App.scale (App.useStarPhysics (Fin m) (Fin a))) exploded (Fin m)
            (Fin a) delta st)) = false.
Proof.
intros Hm Hin Ht Hd.
rewrite SinglePlanet_frame_isDead by exact Hd.
rewrite getSystemPhysics_lifespan, getSystemPhysics_redGiantEnd by exact Hm.
destruct (catalogue_distance data st m a theta Hm Hin Ht) as [q [Eq Hq]].
rewrite (app_star_never_engulfs m a _ q Hm Eq Hq).
apply andb_false_r.
Qed.

(** X18. In the application the death logic can never fire: with the
    scale that [useStarPhysics] gives the star for the same mass and age,
    for every mass above 0 and every finite age, no planet of the
    catalogue that is not inert becomes inert in a frame, and no particle
    of the inner belt is hidden by the star, so that only the explosion
    draws it at scale 0. *)
Theorem no_engulfment_in_app
  (m a : R) (exploded : bool) (delta : number) :
  0 < m ->
  let starScale := App.scale (App.useStarPhysics (Fin m) (Fin a)) in
  (forall data st theta,
     In data App.planets -> App.angle st = Fin theta ->
     App.isDead st = false ->
     App.isDead (fst (App.SinglePlanet_frame data starScale exploded (Fin m)
                        (Fin a) delta st)) = false)
  /\ (forall p d,
     App.p_dist p = Fin d -> 10.5 <= d ->
     App.i_scale (snd (App.AsteroidBelt_particle (Fin m) (Fin a) exploded
                         starScale delta p))
     = if exploded then Fin 0 else App.p_size p).
Proof.
intros Hm starScale. subst starScale. split.
- intros data st theta Hin Ht Hd. now apply (catalogue_planet_survives m a
    exploded delta data st theta).
- intros p d Hp Hd.
  rewrite AsteroidBelt_particle_scale by exact Hm.
  destruct exploded; [reflexivity |]. cbn [orb].
  rewrite (particle_currentDist_Fin p m a d Hm Hp), mul_Fin.
  unfold Num.gt at 1. cbn [Num.lt].
  destruct (Rlt_dec (Spec.lifespan m) a) as [H1 | H1]; [| reflexivity].
  destruct (Rlt_dec a (Spec.redGiantEnd m)) as [H2 | H2]; [| reflexivity].
  cbn [andb].
  destruct (app_star_scale_bound m a Hm (conj H1 H2)) as [S [E HS]].
  rewrite E.
  pose proof (agingExpansion_bounds m _ Hm (spec_massMultiplier_bounds m a))
    as Hx.
  pose proof (Rpower_pos m 0.5) as Hpw.
  assert (Hf : 0 < m / (m * Spec.massMultiplier m a) * Rpower m 0.5)
    by (apply Rmult_lt_0_compat; lra).
  rewrite not_gt_Fin; [reflexivity |]. nra.
Qed.

(** X18 for Mercury at mass 4 and age 0.9, inside the red-giant window of
    that mass. *)
Lemma no_engulfment_in_app_witness :
  App.isDead
    (fst (App.SinglePlanet_frame
            (App.circular "MERCURY" 3.5 0.15 2.0 false false)
            (App.scale (App.useStarPhysics (Fin 4) (Fin 0.9))) false
            (Fin 4) (Fin 0.9) (Fin 0.016) (App.SinglePlanet_mount (Fin 0))))
  = false.
Proof.
assert (Hm : 0 < 4) by lra.
apply (proj1 (no_engulfment_in_app 4 0.9 false (Fin 0.016) Hm)
         (App.circular "MERCURY" 3.5 0.15 2.0 false false)
         (App.SinglePlanet_mount (Fin 0)) 0).
- left. reflexivity.
- reflexivity.
- reflexivity.
Defined.


(** ** The planets in the running application *)

Lemma catalogue_speed (data : App.PlanetData) :
  In data App.planets -> Props.finite (App.speed data).
Proof.
unfold App.planets. cbn [In]. intros H.
repeat (destruct H as [<- | H]; [eexists; reflexivity |]).
destruct H.
Qed.

Lemma playback_step_mass_age (s : App.AppState) :
  Props.finite (App.age s) ->
  App.mass (App.playback_step s) = App.mass s
  /\ Props.finite (App.age (App.playback_step s)).
Proof.
intros [a Ea]. unfold App.playback_step.
destruct (App.interval_installed s); [| split; [reflexivity | now exists a]].
rewrite (interval_tick_eq s a Ea).
destruct (Rle_dec 14.9 a); (split; [reflexivity | eexists; reflexivity]).
Qed.

Lemma SinglePlanet_frame_angle
  (data : App.PlanetData) (starScale : number) (exploded : bool)
  (m a delta theta : R) (st : App.PlanetState) :
  0 < m -> In data App.planets -> App.angle st = Fin theta ->
  Props.finite
    (App.angle (fst (App.SinglePlanet_frame data starScale exploded (Fin m)
                       (Fin a) (Fin delta) st))).
Proof.
intros Hm Hin Ht. destruct (catalogue_speed data Hin) as [v Hv].
unfold App.SinglePlanet_frame.
destruct (exploded || App.isDead st); [now exists theta |].
cbn [fst App.angle]. rewrite Hv, Ht, currentSpeed_Fin by exact Hm.
eexists. reflexivity.
Qed.

Lemma scene_alive_onApp (g : App.AppState -> App.AppState) (sc : App.Scene) :
  Props.positive (App.mass (g (App.sc_app sc))) ->
  Props.finite (App.age (g (App.sc_app sc))) ->
  Props.scene_alive sc -> Props.scene_alive (App.onApp g sc).
Proof.
intros Hm Ha [_ [_ Hp]]. split; [exact Hm |]. split; [exact Ha | exact Hp].
Qed.

Lemma scene_alive_mount (s : App.AppState) (angles : list number) :
  Props.positive (App.mass s) -> Props.finite (App.age s) ->
  Forall Props.finite angles ->
  Props.scene_alive (App.Scene_mount s angles).
Proof.
intros Hm Ha Hang. split; [exact Hm |]. split; [exact Ha |].
intros data st Hin. cbn [App.Scene_mount App.sc_planets] in Hin.
split; [now apply (in_combine_l _ _ _ _ Hin) |].
apply in_combine_r, in_map_iff in Hin as [x [<- Hx]].
split; [reflexivity |]. cbn [App.SinglePlanet_mount App.angle].
rewrite Forall_forall in Hang. now apply Hang.
Qed.

Lemma scene_alive_frame (delta : number) (sc : App.Scene) :
  Props.finite delta ->
  Props.scene_alive sc -> Props.scene_alive (App.Scene_frame delta sc).
Proof.
intros [dl ->] [[m [Em Hm]] [[a Ea] Hp]]. unfold App.Scene_frame.
split; [| split].
- cbn [App.sc_app].
  match goal with
  | |- context [existsb ?f ?l] => destruct (existsb f l)
  end; now exists m.
- cbn [App.sc_app].
  match goal with
  | |- context [existsb ?f ?l] => destruct (existsb f l)
  end; now exists a.
- cbn [App.sc_planets]. intros data st Hin.
  rewrite map_map in Hin. apply in_map_iff in Hin as [[d0 st0] [Eq Hin]].
  cbn [fst snd] in Eq. injection Eq as <- <-.
  destruct (Hp d0 st0 Hin) as [Hcat [Hd [theta Ht]]].
  split; [exact Hcat |].
  unfold App.App_frame, App.starStats.
  cbn [App.f_starScale App.f_exploded App.f_mass App.f_age App.f_delta].
  rewrite Em, Ea. split.
  + now apply (catalogue_planet_survives m a _ _ d0 st0 theta).
  + now apply (SinglePlanet_frame_angle d0 _ _ m a dl theta).
Qed.

Lemma scene_alive_step (sc : App.Scene) (e : App.SceneEvent) :
  Props.valid_event e ->
  Props.scene_alive sc -> Props.scene_alive (App.Scene_step sc e).
Proof.
intros He H. pose proof H as [Hm [Ha Hp]].
destruct e; cbn [App.Scene_step Props.valid_event] in *.
- now apply scene_alive_frame.
- unfold App.Scene_click.
  destruct (nth_error (App.sc_planets sc) i) as [[data st] |]; [| exact H].
  destruct (App.isDead st); [exact H |].
  split; [exact Hm |]. split; [exact Ha | exact Hp].
- now apply scene_alive_onApp.
- now apply scene_alive_onApp.
- now apply scene_alive_onApp.
- now apply scene_alive_onApp.
- now apply scene_alive_onApp.
- destruct (playback_step_mass_age (App.sc_app sc) Ha) as [E1 E2].
  apply scene_alive_onApp; [now rewrite E1 | exact E2 | exact H].
- now apply scene_alive_onApp.
- apply scene_alive_mount; [exact Hm | now exists 0 | exact He].
Qed.

(** X19. In the running application no planet ever disappears: from the
    initial state, through every sequence of frames, clicks, changes of
    the mass to a value above 0 and of the age to a finite value,
    playback, explosions and resets, every mounted planet is a planet of
    the catalogue that is not inert, so it is always handed to the
    renderer. *)
Theorem planets_never_disappear
  (angles : list number) (es : list App.SceneEvent) :
  Forall Props.finite angles -> Forall Props.valid_event es ->
  let sc := App.Scene_run (App.Scene_mount App.App_initial angles) es in
  Props.scene_alive sc
  /\ forall data st exploded,
       In (data, st) (App.sc_planets sc) ->
       App.SinglePlanet_render data exploded st <> None.
Proof.
intros Hang Hes sc.
assert (H : Props.scene_alive sc).
{ subst sc. unfold App.Scene_run.
  assert (H0 : Props.scene_alive (App.Scene_mount App.App_initial angles)).
  { apply scene_alive_mount; [| | exact Hang].
    - exists 1. split; [reflexivity | lra].
    - now exists 0. }
  revert H0. generalize (App.Scene_mount App.App_initial angles).
  induction Hes as [| e es He _ IH]; intros sc0 H0; [exact H0 |].
  cbn [fold_left]. apply IH. now apply scene_alive_step. }
split; [exact H |].
intros data st exploded Hin. destruct H as [_ [_ Hp]].
destruct (Hp data st Hin) as [_ [Hd _]].
unfold App.SinglePlanet_render. rewrite Hd. discriminate.
Qed.

(** X19 for the nine planets, after playback has been switched on, the
    mass set to 4, the age set to 0.9 and a frame drawn. *)
Lemma planets_never_disappear_witness :
  Props.scene_alive
    (App.Scene_run
       (App.Scene_mount App.App_initial
          [Fin 0; Fin 1; Fin 2; Fin 3; Fin 4; Fin 5; Fin 6; Fin 0.5; Fin 1.5])
       [App.ToggleTime; App.SetMass (Fin 4); App.SetAge (Fin 0.9);
        App.FrameEvent (Fin 0.016)]).
Proof.
apply planets_never_disappear.
- repeat constructor; eexists; reflexivity.
- repeat constructor.
  + exists 4. split; [reflexivity | lra].
  + eexists; reflexivity.
  + eexists; reflexivity.
Defined.


(** ** The two physics functions side by side *)

(** X20. The stage of the star and the system scaling agree: a star in the
    Main Sequence has its full mass, a remnant has four tenths of it, and
    a frame can make a planet inert only while the star is a Red Giant,
    whatever scale the star is given. *)
Theorem engulfment_only_by_red_giant
  (m a : R) (data : App.PlanetData) (st : App.PlanetState)
  (starScale delta : number) (exploded : bool) :
  0 < m -> App.isDead st = false ->
  let stage := App.stage (App.useStarPhysics (Fin m) (Fin a)) in
  let currentMass := App.currentMass (App.getSystemPhysics (Fin m) (Fin a)) in
  (stage = App.MainSequence -> currentMass = Fin (m * 1))
  /\ (stage = App.Supernova \/ stage = App.WhiteDwarf ->
      currentMass = Fin (m * 0.4))
  /\ (App.isDead (fst (App.SinglePlanet_frame data starScale exploded (Fin m)
                         (Fin a) delta st)) = true ->
      stage = App.RedGiant).
Proof.
intros Hm Hd stage currentMass. subst stage currentMass.
pose proof (spec_redGiantEnd_gt m) as He.
rewrite currentMass_Fin by exact Hm.
rewrite SinglePlanet_frame_isDead by exact Hd.
rewrite getSystemPhysics_lifespan, getSystemPhysics_redGiantEnd by exact Hm.
unfold App.planet_engulfed, Spec.massMultiplier, Num.gt. cbn [Num.lt].
destruct (Rlt_dec a (Spec.lifespan m)) as [A1 | A1].
- destruct (useStarPhysics_main m a Hm A1) as [-> _].
  cmp_cases; try lra; cbn [andb]; rewrite ?andb_false_r;
    repeat split; try easy; intros [? | ?]; discriminate.
- destruct (Rlt_dec a (Spec.redGiantEnd m)) as [A2 | A2].
  + destruct (useStarPhysics_giant m a Hm) as [-> _]; try lra.
    repeat split; try easy. intros [? | ?]; discriminate.
  + destruct (useStarPhysics_remnant m a Hm) as [-> _]; try lra.
    cmp_cases; try lra; cbn [andb]; rewrite ?andb_false_r;
      repeat split; try easy.
Qed.

(** X20 for Mercury at mass 1 and age 5, with a star of scale 100. *)
Lemma engulfment_only_by_red_giant_witness :
  App.currentMass (App.getSystemPhysics (Fin 1) (Fin 5)) = Fin (1 * 1).
Proof.
assert (Hm : 0 < 1) by lra.
apply (engulfment_only_by_red_giant 1 5
         (App.circular "MERCURY" 3.5 0.15 2.0 false false)
         (App.SinglePlanet_mount (Fin 0)) (Fin 100) (Fin 0) false Hm eq_refl).
apply useStarPhysics_main; [lra | rewrite Spec_lifespan_1; lra].
Defined.

